(** * simple-rag: the chunking engine of [index_documents.py]

    A shallow embedding of the chunkers ([chunk_text_fixed_size],
    [chunk_text_by_sentences], [chunk_text_by_paragraphs], [chunk_text]), of
    the sanitising step of [convert_file] and of the record flow of
    [save_chunks], followed by the properties stated about them. The
    Hebrew reversal ([is_hebrew], [reverse_hebrew_text]), the Markdown of
    the three kinds of source ([format_text_to_markdown],
    [convert_pdf_to_markdown], [convert_docx_to_markdown]) and the chunking
    stage of [convert_file] are embedded as well, as functions of the text
    that the readers of the files give.

    Python values are modelled as follows.
    - A [str] is a list of Unicode code points ([text := list N]); the
      documents are Hebrew, so 8-bit characters would not do.
    - An [int] is a [Z]; chunk sizes and overlaps may be zero or negative.
    - A raised exception is the [Raise] outcome of a [result].
    - The [while] loop runs on fuel: [None] means that the fuel ran out
      before the loop left, so termination is a theorem and not a
      property of the encoding. *)

From Stdlib Require Import Ascii String DecimalString DecimalNat.
From Stdlib Require Import ZArith NArith List Bool Lia Permutation Sorted FinFun.
Import ListNotations.

Set Implicit Arguments.

(** ** Python strings *)

Definition char := N.
Abbreviation text := (list char).

(** [str "abc"] is the Python literal ['abc'] (code points of an ASCII
    literal). *)
Definition str (s : string) : text := map N_of_ascii (list_ascii_of_string s).

Definition char_eqb (a b : char) : bool := N.eqb a b.

Fixpoint text_eqb (a b : text) : bool :=
  match a, b with
  | [], [] => true
  | x :: a', y :: b' => char_eqb x y && text_eqb a' b'
  | _, _ => false
  end.

(** [len(s)] as a Python int. *)
Definition len (A : Type) (s : list A) : Z := Z.of_nat (length s).

(** ** Slicing: [s[lo:hi]] with Python's index adjustment

    A negative index counts from the end; after that it is clipped into
    [0 .. len(s)]. An empty range gives the empty sequence. *)

Definition adjust_index (n i : Z) : Z :=
  if (i <? 0)%Z then Z.max 0 (i + n) else Z.min i n.

Definition slice (A : Type) (s : list A) (lo hi : Z) : list A :=
  let a := adjust_index (len s) lo in
  let b := adjust_index (len s) hi in
  firstn (Z.to_nat (b - a)) (skipn (Z.to_nat a) s).

(** [s[lo:]] and [s[:hi]]. *)
Definition slice_from (A : Type) (s : list A) (lo : Z) : list A :=
  skipn (Z.to_nat (adjust_index (len s) lo)) s.

Definition slice_to (A : Type) (s : list A) (hi : Z) : list A :=
  firstn (Z.to_nat (adjust_index (len s) hi)) s.

(** ** Outcomes *)

Inductive exn : Type :=
| ValueError (msg : text).

Inductive result (A : Type) : Type :=
| Ok (a : A)
| Raise (e : exn).

Arguments Ok {A} a.
Arguments Raise {A} e.

(** The two errors of the chunking engine, both [ValueError] in the source:
    the specification calls them InvalidChunkConfig and UnsupportedStrategy. *)
Definition InvalidChunkConfig : exn :=
  ValueError (str "chunk_size must be greater than overlap").

Definition UnsupportedStrategy (strategy : text) : exn :=
  ValueError (str "Unknown chunking strategy: " ++ strategy).

(** ** Fixed-size chunker *)

Module Fixed.

(** What one pass through the loop body does to the loop variables. *)
Inductive flow : Type :=
| Continue (start : Z) (chunks : list text)
| Break (chunks : list text).

(** The body of [while start < text_length]:
    [end = start + chunk_size; chunks.append(text[start:end]);
     if end >= text_length: break; start = end - overlap]. *)
Definition body (t : text) (chunk_size overlap start : Z) (chunks : list text) : flow :=
  let end_ := (start + chunk_size)%Z in
  let chunk := slice t start end_ in
  let chunks := chunks ++ [chunk] in
  if (end_ >=? len t)%Z then Break chunks
  else Continue (end_ - overlap)%Z chunks.

(** The loop; one unit of fuel per evaluation of the loop condition. *)
Fixpoint while (fuel : nat) (t : text) (chunk_size overlap start : Z)
         (chunks : list text) : option (list text) :=
  match fuel with
  | O => None
  | S fuel' =>
      if (start <? len t)%Z then
        match body t chunk_size overlap start chunks with
        | Break chunks' => Some chunks'
        | Continue start' chunks' => while fuel' t chunk_size overlap start' chunks'
        end
      else Some chunks
  end.

End Fixed.

(** [chunk_text_fixed_size(text, chunk_size, overlap)]. *)
Definition chunk_text_fixed_size (fuel : nat) (t : text) (chunk_size overlap : Z)
  : option (result (list text)) :=
  if (chunk_size <=? overlap)%Z then Some (Raise InvalidChunkConfig)
  else
    match Fixed.while fuel t chunk_size overlap 0 [] with
    | Some chunks => Some (Ok chunks)
    | None => None
    end.

(** Fuel that is always enough: one more than the length of the text. *)
Definition enough (t : text) : nat := S (length t).

(** ** Whitespace, [str.strip], [str.split], [str.replace] *)

(** Python's Unicode whitespace, the class behind both [str.strip()] and the
    [\s] of [re] on a [str] pattern. *)
Definition is_space (c : char) : bool :=
  ((9 <=? c) && (c <=? 13) || (28 <=? c) && (c <=? 32)
   || (c =? 133) || (c =? 160) || (c =? 5760)
   || (8192 <=? c) && (c <=? 8202)
   || (c =? 8232) || (c =? 8233) || (c =? 8239) || (c =? 8287)
   || (c =? 12288))%N.

Fixpoint lstrip (t : text) : text :=
  match t with
  | [] => []
  | c :: rest => if is_space c then lstrip rest else t
  end.

Definition rstrip (t : text) : text := rev (lstrip (rev t)).

Definition strip (t : text) : text := rstrip (lstrip t).

(** Truth value of a [str]: non-empty. *)
Definition truthy (A : Type) (s : list A) : bool :=
  match s with [] => false | _ :: _ => true end.

Fixpoint starts_with (pre t : text) : bool :=
  match pre, t with
  | [], _ => true
  | p :: pre', c :: t' => char_eqb p c && starts_with pre' t'
  | _ :: _, [] => false
  end.

(** [t.split(sep)] for a non-empty [sep]: occurrences are found left to
    right and do not overlap. [skip] counts the characters of a found
    occurrence that are still to be passed over; [cur] is the piece being
    read, reversed. *)
Fixpoint split_aux (sep : text) (skip : nat) (cur : text) (t : text) : list text :=
  match t with
  | [] => [rev cur]
  | c :: rest =>
      match skip with
      | S k => split_aux sep k cur rest
      | O =>
          if starts_with sep t
          then rev cur :: split_aux sep (length sep - 1) [] rest
          else split_aux sep 0 (c :: cur) rest
      end
  end.

Definition split (t sep : text) : list text := split_aux sep 0 [] t.

(** [t.replace(old, new)] for a non-empty [old]. *)
Fixpoint replace_aux (old new : text) (skip : nat) (t : text) : text :=
  match t with
  | [] => []
  | c :: rest =>
      match skip with
      | S k => replace_aux old new k rest
      | O =>
          if starts_with old t
          then new ++ replace_aux old new (length old - 1) rest
          else c :: replace_aux old new 0 rest
      end
  end.

Definition replace (t old new : text) : text := replace_aux old new 0 t.

Definition nl : text := [10%N].
Definition quote : text := [34%N].

(** ** Sentence chunker *)

Module Sentence.

(** The character class [[.!?\n]] of the look-behind. *)
Definition is_sentence_end (c : char) : bool :=
  ((c =? 46) || (c =? 33) || (c =? 63) || (c =? 10))%N.

(** [(?<=[.!?\n])] at a position whose preceding character is [prev]
    ([None] at the start of the text). *)
Definition lookbehind (prev : option char) : bool :=
  match prev with
  | Some c => is_sentence_end c
  | None => false
  end.

(** The matches of [(?<=[.!?\n])\s+] in a text, found as [re] finds them:
    left to right, the leftmost position first, [\s+] taking the whole run
    of whitespace, the search resuming where the match ended. The scanner
    yields every piece between matches together with the match that
    follows it ([[]] after the last piece: a match is never empty).
    [in_sep] says that a match is being read; [prev] is the character
    before the current position; [piece] and [sep] are the piece and the
    match read so far, reversed. *)
Fixpoint scan (in_sep : bool) (prev : option char) (piece sep : text) (t : text)
  : list (text * text) :=
  match t with
  | [] => if in_sep then [(rev piece, rev sep); ([], [])] else [(rev piece, [])]
  | c :: rest =>
      if is_space c && (in_sep || lookbehind prev)
      then scan true (Some c) piece (c :: sep) rest
      else if in_sep
           then (rev piece, rev sep) :: scan false (Some c) [c] [] rest
           else scan false (Some c) (c :: piece) [] rest
  end.

(** [re.split(r'(?<=[.!?\n])\s+', text)]: the pieces. *)
Definition re_split (t : text) : list text := map fst (scan false None [] [] t).

(** [re.findall] of the same pattern: the matches. *)
Definition re_findall (t : text) : list text :=
  filter (@truthy char) (map snd (scan false None [] [] t)).

End Sentence.

(** [chunk_text_by_sentences(text)]:
    [[s.strip() for s in sentences if s.strip()]]. *)
Definition strip_nonempty (pieces : list text) : list text :=
  map strip (filter (fun s => truthy (strip s)) pieces).

Definition chunk_text_by_sentences (t : text) : list text :=
  strip_nonempty (Sentence.re_split t).

(** ** Paragraph chunker: [text.split('\n\n')], stripped, empties dropped. *)
Definition chunk_text_by_paragraphs (t : text) : list text :=
  strip_nonempty (split t (nl ++ nl)).

(** ** Strategy selector: [chunk_text(text, strategy, chunk_size, overlap)] *)
Definition chunk_text (fuel : nat) (t strategy : text) (chunk_size overlap : Z)
  : option (result (list text)) :=
  if text_eqb strategy (str "fixed") then chunk_text_fixed_size fuel t chunk_size overlap
  else if text_eqb strategy (str "sentence") then Some (Ok (chunk_text_by_sentences t))
  else if text_eqb strategy (str "paragraph") then Some (Ok (chunk_text_by_paragraphs t))
  else Some (Raise (UnsupportedStrategy strategy)).

(** ** Directional markup: emitted by the converters, removed before chunking *)

Definition rtl_open : text := str "<div dir=" ++ quote ++ str "rtl" ++ quote ++ str ">".
Definition rtl_close : text := str "</div>".

(** [format_text_to_markdown(text)], the extraction of TXT and DOCX files. *)
Definition format_line (line : text) : text :=
  if truthy (strip line) then strip line ++ nl else nl.

Definition format_text_to_markdown (t : text) : text :=
  (rtl_open ++ nl ++ nl)
    ++ concat (map format_line (split t nl))
    ++ (nl ++ rtl_close).

(** The sanitising line of [convert_file]:
    [content.replace('<div dir="rtl">', '').replace('</div>', '').strip()]. *)
Definition remove_rtl_wrapper (content : text) : text :=
  strip (replace (replace content rtl_open []) rtl_close []).

(** ** The chunk pipeline: [generate_embedding], [save_to_database], [save_chunks] *)

Module Pipeline.

Section WithVectors.

(** The numbers of an embedding vector; the pipeline only carries them. *)
Variable F : Type.

Definition vector : Type := list F.

(** The embedding provider, [genai.embed_content(...)['embedding']]: [None]
    stands for a call that raises. It is asked once per chunk, in order, so
    it may answer by the ordinal of the chunk as well as by its text. *)
Definition provider : Type := nat -> text -> option vector.

(** [generate_embedding]: the [try] turns every failure into [None]. *)
Definition generate_embedding (embed : provider) (i : nat) (chunk : text) : option vector :=
  match embed i chunk with
  | Some v => Some v
  | None => None
  end.

(** Truth value of what [generate_embedding] returned: [None] and the empty
    list are false. *)
Definition has_vector (e : option vector) : bool :=
  match e with
  | Some (_ :: _) => true
  | _ => false
  end.

(** Truth value of an optional string such as [api_key] or [postgres_url]. *)
Definition is_set (s : option text) : bool :=
  match s with
  | Some (_ :: _) => true
  | _ => false
  end.

(** An entry of [embeddings_data]. *)
Record entry : Type := Entry {
  chunk_id : nat;
  chunk_file : text;
  preview : text;
  embedding : vector;
  embedding_dim : nat
}.

(** A row of [document_chunks]; the [embedding] column is nullable. The
    [created_at] column holds the wall-clock time of the write and is left
    out. *)
Record row : Type := Row {
  chunk_text_col : text;
  embedding_col : option vector;
  filename_col : text;
  split_strategy_col : text
}.

(** What one run of [save_chunks] leaves behind. *)
Record effects : Type := Effects {
  saved_files : list (text * text);
  embeddings_json : option (list entry);
  database : list row
}.

Definition decimal (n : nat) : text := str (NilEmpty.string_of_uint (Nat.to_uint n)).

Definition chunk_filename (i : nat) : text := str "chunk_" ++ decimal i ++ str ".md".

(** The Markdown written for chunk [i] of [n]. *)
Definition chunk_markdown (i n : nat) (chunk : text) : text :=
  (rtl_open ++ nl ++ nl)
    ++ (str "# Chunk " ++ decimal i ++ str "/" ++ decimal n ++ nl ++ nl)
    ++ chunk
    ++ (nl ++ nl ++ rtl_close).

(** [chunk[:200] + "..." if len(chunk) > 200 else chunk]. *)
Definition make_preview (chunk : text) : text :=
  if (len chunk >? 200)%Z then slice_to chunk 200 ++ str "..." else chunk.

(** [save_to_database(chunks_data, postgres_url)] on a store that holds
    [db] and is reachable or not ([up]): all rows are inserted and
    committed, or the exception is caught and nothing is. The flag is the
    value returned. *)
Definition save_to_database (up : bool) (db rows : list row) (postgres_url : option text)
  : list row * bool :=
  if negb (is_set postgres_url) then (db, false)
  else if up then (db ++ rows, true)
  else (db, false).

(** The [for i, chunk in enumerate(chunks, 1)] loop: the files written and
    the entries collected, from ordinal [i] on. *)
Fixpoint each_chunk (embed : provider) (with_embedding : bool) (n i : nat)
         (chunks : list text) : list (text * text) * list entry :=
  match chunks with
  | [] => ([], [])
  | chunk :: rest =>
      let (files, entries) := each_chunk embed with_embedding n (S i) rest in
      let file := (chunk_filename i, chunk_markdown i n chunk) in
      if with_embedding then
        (* [if embedding:] holds for a non-empty list only *)
        match generate_embedding embed i chunk with
        | Some (x :: v) =>
            (file :: files,
             Entry i (chunk_filename i) (make_preview chunk) (x :: v) (length (x :: v))
               :: entries)
        | _ => (file :: files, entries)
        end
      else (file :: files, entries)
  end.

(** [chunks[chunk_data['chunk_id'] - 1]]: list indexing with Python's
    negative indices; out of range cannot happen for an id taken from
    [enumerate(chunks, 1)] and is mapped to the empty text. *)
Definition chunk_of_id (chunks : list text) (id : nat) : text :=
  nth (id - 1) chunks [].

Definition db_row (chunks : list text) (base_name split_strategy : text) (e : entry) : row :=
  Row (chunk_of_id chunks (chunk_id e)) (Some (embedding e)) base_name split_strategy.

(** [save_chunks(chunks, base_output_path, enable_embedding, api_key,
    split_strategy, postgres_url)], started on a store holding [db]. *)
Definition save_chunks (embed : provider) (up : bool) (db : list row)
           (chunks : list text) (base_name : text)
           (enable_embedding : bool) (api_key : option text)
           (split_strategy : text) (postgres_url : option text) : effects :=
  let (files, embeddings_data) :=
    each_chunk embed (enable_embedding && is_set api_key) (length chunks) 1 chunks in
  if truthy embeddings_data then
    if is_set postgres_url then
      let db_chunks_data := map (db_row chunks base_name split_strategy) embeddings_data in
      Effects files (Some embeddings_data)
              (fst (save_to_database up db db_chunks_data postgres_url))
    else Effects files (Some embeddings_data) db
  else Effects files None db.

End WithVectors.

End Pipeline.

(** ** Statement vocabulary *)

(** Ceiling of the quotient [a / b] of two integers, [b > 0]. *)
Definition ceil_div (a b : Z) : Z := (- ((- a) / b))%Z.

(** Overlap removal: the first chunk followed by every later chunk from
    offset [O] on, [cs[0] + cs[1][O:] + cs[2][O:] + ...]; nothing for no
    chunk at all. *)
Definition reconstruct (O : Z) (cs : list text) : text :=
  match cs with
  | [] => []
  | c :: rest => c ++ concat (map (fun x => slice_from x O) rest)
  end.

(** The chunks of a text from the cursor on, as successive windows of width
    [s] taken every [d] characters of the remaining text; the reading of the
    loop that the proofs work with. *)
Fixpoint windows (A : Type) (fuel s d : nat) (rest : list A) : list (list A) :=
  match fuel with
  | O => []
  | S fuel' =>
      match rest with
      | [] => []
      | _ :: _ =>
          firstn s rest ::
            (if (length rest <=? s)%nat then [] else windows fuel' s d (skipn d rest))
      end
  end.

(** A boundary inside a text: a sentence end directly followed by a
    whitespace character. *)
Definition has_boundary (t : text) : Prop :=
  exists (l1 : text) (d c : char) (l2 : text),
    t = l1 ++ d :: c :: l2
    /\ Sentence.is_sentence_end d = true /\ is_space c = true.

(** A text whose last character is [d]. *)
Definition ends_with (d : char) (t : text) : Prop := exists t', t = t' ++ [d].

(** The pieces of a split with the match after each: every piece but the
    last ends in a sentence end and is followed by a non-empty run of
    whitespace, after which the next piece starts with a character that is
    not whitespace; the last piece has no match after it; no piece has a
    boundary inside. *)
Fixpoint well_split (segs : list (text * text)) : Prop :=
  match segs with
  | [] => True
  | (p, sep) :: rest =>
      ~ has_boundary p
      /\ match rest with
         | [] => sep = []
         | (p', _) :: _ =>
             (exists d, ends_with d p /\ Sentence.is_sentence_end d = true)
             /\ sep <> [] /\ Forall (fun c => is_space c = true) sep
             /\ lstrip p' = p'
         end
      /\ well_split rest
  end.

(** The state of the scanner between two characters. *)
Definition scan_inv (in_sep : bool) (prev : option char) (piece sep : text) : Prop :=
  ~ has_boundary (rev piece)
  /\ if in_sep
     then (exists d piece', piece = d :: piece' /\ Sentence.is_sentence_end d = true)
          /\ sep <> [] /\ Forall (fun c => is_space c = true) sep
     else sep = [] /\ prev = hd_error piece.

(** The rows expected in the store after a run: one for every chunk, in
    order, whose embedding call gave a non-empty vector. [i] is the ordinal
    of the first chunk. *)
Fixpoint rows_of (F : Type) (embed : Pipeline.provider F) (base_name split_strategy : text)
         (i : nat) (chunks : list text) : list (Pipeline.row F) :=
  match chunks with
  | [] => []
  | chunk :: rest =>
      match embed i chunk with
      | Some (x :: v) => [Pipeline.Row chunk (Some (x :: v)) base_name split_strategy]
      | _ => []
      end ++ rows_of embed base_name split_strategy (S i) rest
  end.

(** A provider that gives a one-number vector for every chunk but the
    second, on which it fails. *)
Definition fails_on_second : Pipeline.provider Z :=
  fun i _ => if Nat.eqb i 2 then None else Some [Z.of_nat i].

(** ** [str.join] *)

(** [sep.join(parts)]. *)
Fixpoint join (sep : text) (parts : list text) : text :=
  match parts with
  | [] => []
  | p :: rest =>
      match rest with
      | [] => p
      | _ :: _ => p ++ sep ++ join sep rest
      end
  end.

(** ** Hebrew text from PDF extraction: [is_hebrew], [reverse_hebrew_text] *)

Module Hebrew.

(** [is_hebrew(char)] on one character: between U+0590 and U+05FF. *)
Definition is_hebrew (c : char) : bool := ((1424 <=? c) && (c <=? 1535))%N.

(** [re.findall(r'\S+|\s+', text)]: the text cut into maximal runs of
    non-whitespace and of whitespace. [cur] is the run being read,
    reversed. *)
Fixpoint tokens_aux (cur : text) (t : text) : list text :=
  match t with
  | [] => match cur with [] => [] | _ :: _ => [rev cur] end
  | c :: rest =>
      match cur with
      | [] => tokens_aux [c] rest
      | p :: _ =>
          if Bool.eqb (is_space p) (is_space c)
          then tokens_aux (c :: cur) rest
          else rev cur :: tokens_aux [c] rest
      end
  end.

Definition tokens (t : text) : list text := tokens_aux [] t.

(** The body of the loop over the tokens: a token that is not blank and has
    a Hebrew letter is appended reversed ([token[::-1]]), any other token as
    it is. *)
Definition fix_token (token : text) : text :=
  if truthy (strip token)
  then if existsb is_hebrew token then rev token else token
  else token.

(** [reverse_hebrew_text(text)]. *)
Definition reverse_hebrew_text (t : text) : text :=
  join [] (map fix_token (tokens t)).

End Hebrew.

(** ** Extraction: the Markdown of PDF and DOCX sources *)

(** The word for "page" in the page headings. *)
Definition page_word : text := [1506; 1502; 1493; 1491]%N.

Definition pdf_line (line : text) : text :=
  if truthy (strip line) then Hebrew.reverse_hebrew_text line ++ nl else nl.

(** The pieces appended for the pages from number [page_num] on;
    [page.extract_text()] gives [None] or an empty text for a page without
    text, and such a page adds nothing. *)
Fixpoint pdf_pages (page_num : nat) (pages : list (option text)) : list text :=
  match pages with
  | [] => []
  | page :: rest =>
      match page with
      | Some (c :: page_text) =>
          [str "# " ++ page_word ++ str " " ++ Pipeline.decimal page_num ++ nl ++ nl]
            ++ map pdf_line (split (c :: page_text) nl)
            ++ [nl ++ str "---" ++ nl ++ nl]
      | _ => []
      end ++ pdf_pages (S page_num) rest
  end.

(** [convert_pdf_to_markdown]: the Markdown written and the page count
    returned, from the extracted text of every page. *)
Definition convert_pdf_to_markdown (pages : list (option text)) : text * nat :=
  (join [] ([rtl_open ++ nl ++ nl] ++ pdf_pages 1 pages ++ [rtl_close]),
   length pages).

(** [convert_docx_to_markdown]: the Markdown written, from the text of every
    paragraph of the document. *)
Definition convert_docx_to_markdown (paragraphs : list text) : text :=
  format_text_to_markdown (join nl (filter (fun p => truthy (strip p)) paragraphs)).

(** ** The chunking stage of [convert_file]

    The block under [if enable_chunking:], on the Markdown read back from
    the output file: the effects of [save_chunks] and the text appended to
    the result message, or the exception of [chunk_text]. *)

(** [strategy_name[chunk_strategy]]; a missing key raises [KeyError]. *)
Definition strategy_name (strategy : text) : option text :=
  if text_eqb strategy (str "fixed") then Some (str "fixed-size")
  else if text_eqb strategy (str "sentence") then Some (str "sentence-based")
  else if text_eqb strategy (str "paragraph") then Some (str "paragraph-based")
  else None.

Inductive stage_outcome (F : Type) : Type :=
| Saved (effects : Pipeline.effects F) (message : text)
| Failed (e : exn)
| KeyError.

Arguments Saved {F} effects message.
Arguments Failed {F} e.
Arguments KeyError {F}.

Definition chunking_stage (F : Type) (fuel : nat) (embed : Pipeline.provider F)
           (up : bool) (db : list (Pipeline.row F)) (content base_name : text)
           (chunk_strategy : text) (chunk_size overlap : Z)
           (enable_embedding : bool) (api_key postgres_url : option text)
  : option (stage_outcome F) :=
  let content := remove_rtl_wrapper content in
  match chunk_text fuel content chunk_strategy chunk_size overlap with
  | None => None
  | Some (Raise e) => Some (Failed e)
  | Some (Ok chunks) =>
      let effects :=
        Pipeline.save_chunks embed up db chunks base_name enable_embedding api_key
                             chunk_strategy postgres_url in
      match strategy_name chunk_strategy with
      | None => Some KeyError
      | Some name =>
          Some (Saved effects
                  (str " -> " ++ Pipeline.decimal (length chunks) ++ str " chunks ("
                     ++ name ++ str ") in folder '" ++ base_name ++ str "'"
                     ++ (if enable_embedding then str " (with embeddings)" else [])))
      end
  end.

(** ** More statement vocabulary *)

(** A text that occurs inside another. *)
Definition occurs_in (pat t : text) : Prop := exists l1 l2, t = l1 ++ pat ++ l2.

(** The characters of a text that are not whitespace, in order. *)
Definition non_space (t : text) : text := filter (fun c => negb (is_space c)) t.

(** The normalised lines between the wrapper tags of
    [format_text_to_markdown]. *)
Definition formatted_lines (t : text) : text := concat (map format_line (split t nl)).

(** A list of tokens that are the maximal runs of some text: every token
    is non-empty and of one kind, whitespace or not, and the kind changes
    from a token to the next. [prev] is the kind of the token before. *)
Fixpoint runs (prev : option bool) (toks : list text) : Prop :=
  match toks with
  | [] => True
  | tok :: rest =>
      exists b : bool,
        tok <> [] /\ Forall (fun c => is_space c = b) tok
        /\ prev <> Some b /\ runs (Some b) rest
  end.

(** What an entry of the embeddings index says about the chunks: it is
    for the chunk of its ordinal, whose embedding call gave the vector of
    the entry, a non-empty one. *)
Definition entry_ok (F : Type) (embed : Pipeline.provider F) (chunks : list text)
           (e : Pipeline.entry F) : Prop :=
  exists c : text,
    nth_error chunks (Pipeline.chunk_id e - 1) = Some c
    /\ (1 <= Pipeline.chunk_id e <= length chunks)%nat
    /\ embed (Pipeline.chunk_id e) c = Some (Pipeline.embedding e)
    /\ Pipeline.embedding e <> []
    /\ Pipeline.embedding_dim e = length (Pipeline.embedding e)
    /\ Pipeline.chunk_file e = Pipeline.chunk_filename (Pipeline.chunk_id e)
    /\ Pipeline.preview e = Pipeline.make_preview c.

(** The entries expected in the embeddings index after a run: one for
    every chunk, in order, whose embedding call gave a non-empty vector, and
    none for a chunk whose call failed. [i] is the ordinal of the first
    chunk. *)
Fixpoint entries_of (F : Type) (embed : Pipeline.provider F) (i : nat)
         (chunks : list text) : list (Pipeline.entry F) :=
  match chunks with
  | [] => []
  | chunk :: rest =>
      match embed i chunk with
      | Some (x :: v) =>
          [Pipeline.Entry i (Pipeline.chunk_filename i) (Pipeline.make_preview chunk)
                          (x :: v) (length (x :: v))]
      | _ => []
      end ++ entries_of embed (S i) rest
  end.

(** Reading a file back in text mode, as [convert_file] does with the
    Markdown it has just written ([open(output_path, "r")]): a carriage
    return, alone or followed by a newline, is read as one newline. On a
    platform whose line separator is not the newline, writing adds what
    reading removes. *)
Fixpoint read_text (t : text) : text :=
  match t with
  | [] => []
  | c :: rest =>
      if (c =? 13)%N
      then 10%N :: match rest with
                   | [] => []
                   | d :: rest' => if (d =? 10)%N then read_text rest' else read_text rest
                   end
      else c :: read_text rest
  end.

(** * Properties *)

(** ** Slices *)

Lemma len_nonneg (A : Type) (s : list A) : (0 <= len s)%Z.
Proof. unfold len; lia. Qed.

Lemma slice_window (A : Type) (s : list A) (n w : nat) :
  slice s (Z.of_nat n) (Z.of_nat n + Z.of_nat w) = firstn w (skipn n s).
Proof.
  unfold slice, adjust_index, len.
  destruct (Z.ltb_spec (Z.of_nat n) 0); [lia|].
  destruct (Z.ltb_spec (Z.of_nat n + Z.of_nat w) 0); [lia|].
  destruct (Nat.le_gt_cases (length s) n) as [Hle|Hgt].
  - rewrite (Z.min_r (Z.of_nat n)) by lia. rewrite Nat2Z.id.
    rewrite !skipn_all2 by lia. now rewrite !firstn_nil.
  - rewrite (Z.min_l (Z.of_nat n)) by lia. rewrite Nat2Z.id.
    destruct (Nat.le_gt_cases (length s) (n + w)) as [Hle'|Hgt'].
    + rewrite Z.min_r by lia.
      rewrite !firstn_all2; trivial; rewrite length_skipn; lia.
    + rewrite Z.min_l by lia. f_equal. lia.
Qed.

Lemma slice_from_skipn (A : Type) (s : list A) (o : nat) :
  slice_from s (Z.of_nat o) = skipn o s.
Proof.
  unfold slice_from, adjust_index, len.
  destruct (Z.ltb_spec (Z.of_nat o) 0); [lia|].
  destruct (Nat.le_gt_cases (length s) o).
  - rewrite Z.min_r by lia. rewrite Nat2Z.id. now rewrite !skipn_all2 by lia.
  - rewrite Z.min_l by lia. now rewrite Nat2Z.id.
Qed.

Lemma slice_to_firstn (A : Type) (s : list A) (o : nat) :
  slice_to s (Z.of_nat o) = firstn o s.
Proof.
  unfold slice_to, adjust_index, len.
  destruct (Z.ltb_spec (Z.of_nat o) 0); [lia|].
  destruct (Nat.le_gt_cases (length s) o).
  - rewrite Z.min_r by lia. rewrite Nat2Z.id. now rewrite !firstn_all2 by lia.
  - rewrite Z.min_l by lia. now rewrite Nat2Z.id.
Qed.

(** [s[-o:]] for a positive [o]: the last [o] elements, all of [s] when it
    has fewer. *)
Lemma slice_from_last (A : Type) (s : list A) (o : nat) :
  (0 < o)%nat -> slice_from s (- Z.of_nat o) = skipn (length s - o) s.
Proof.
  intros Ho. unfold slice_from, adjust_index, len.
  destruct (Z.ltb_spec (- Z.of_nat o) 0); [|lia].
  f_equal. lia.
Qed.

(** ** The loop of the fixed-size chunker *)

Lemma while_app (fuel : nat) (t : text) (S_ O_ start : Z) (acc : list text) :
  Fixed.while fuel t S_ O_ start acc
  = option_map (app acc) (Fixed.while fuel t S_ O_ start []).
Proof.
  revert start acc. induction fuel as [|f IH]; intros start acc; simpl; trivial.
  destruct (start <? len t)%Z; simpl.
  - unfold Fixed.body. destruct (start + S_ >=? len t)%Z; simpl; trivial.
    rewrite (IH _ (acc ++ _)). rewrite (IH _ [_]).
    destruct (Fixed.while f t S_ O_ (start + S_ - O_) []); simpl; trivial.
    now rewrite <- app_assoc.
  - now rewrite app_nil_r.
Qed.

(** More fuel does not change a result. *)
Lemma while_more_fuel (fuel fuel' : nat) (t : text) (S_ O_ start : Z)
      (acc r : list text) :
  (fuel <= fuel')%nat ->
  Fixed.while fuel t S_ O_ start acc = Some r ->
  Fixed.while fuel' t S_ O_ start acc = Some r.
Proof.
  revert fuel' start acc. induction fuel as [|f IH]; intros fuel' start acc Hle; simpl.
  - discriminate.
  - destruct fuel' as [|f']; [lia|]. simpl.
    destruct (start <? len t)%Z; trivial.
    destruct (Fixed.body t S_ O_ start acc); trivial.
    apply IH. lia.
Qed.

(** One pass through the body either breaks or moves the cursor on by the
    stride. *)
Lemma body_progress (t : text) (S_ O_ start : Z) (chunks : list text) :
  (exists chunks', Fixed.body t S_ O_ start chunks = Fixed.Break chunks')
  \/ (exists chunks',
         Fixed.body t S_ O_ start chunks = Fixed.Continue (start + (S_ - O_)) chunks').
Proof.
  unfold Fixed.body. destruct (start + S_ >=? len t)%Z.
  - left. eauto.
  - right. replace (start + S_ - O_)%Z with (start + (S_ - O_))%Z by lia. eauto.
Qed.

Lemma while_terminates (t : text) (S_ O_ : Z) :
  (O_ < S_)%Z ->
  forall (fuel : nat) (start : Z) (acc : list text),
    (Z.to_nat (len t - start) < fuel)%nat ->
    exists r, Fixed.while fuel t S_ O_ start acc = Some r.
Proof.
  intros Hso. induction fuel as [|f IH]; intros start acc Hfuel; [lia|].
  simpl. destruct (Z.ltb_spec start (len t)) as [Hlt|Hge]; [|eauto].
  destruct (body_progress t S_ O_ start acc) as [[c ->]|[c ->]]; [eauto|].
  apply IH. lia.
Qed.

(** With [0 <= O < S] the loop yields the windows of width [S] taken every
    [S - O] characters. *)
Lemma while_windows (t : text) (s o : nat) :
  (o < s)%nat ->
  forall (fuel n : nat),
    (length t - n < fuel)%nat ->
    Fixed.while fuel t (Z.of_nat s) (Z.of_nat o) (Z.of_nat n) []
    = Some (windows fuel s (s - o) (skipn n t)).
Proof.
  intros Hos. induction fuel as [|f IH]; intros n Hfuel; [lia|].
  simpl. unfold len.
  destruct (Z.ltb_spec (Z.of_nat n) (Z.of_nat (length t))) as [Hlt|Hge].
  - assert (Hn : (n < length t)%nat) by lia.
    assert (Hlen : length (skipn n t) = (length t - n)%nat) by apply length_skipn.
    destruct (skipn n t) as [|c rest] eqn:Hsk; [simpl in Hlen; lia|].
    unfold Fixed.body. rewrite slice_window, Hsk. unfold len.
    simpl length in Hlen.
    destruct (Z.geb_spec (Z.of_nat n + Z.of_nat s) (Z.of_nat (length t))) as [Hb|Hb].
    + destruct (Nat.leb_spec (length (c :: rest)) s) as [_|Hc];
        [trivial|exfalso; simpl length in Hc; lia].
    + destruct (Nat.leb_spec (length (c :: rest)) s) as [Hc|_];
        [exfalso; simpl length in Hc; lia|].
      rewrite while_app.
      replace (Z.of_nat n + Z.of_nat s - Z.of_nat o)%Z
        with (Z.of_nat (n + (s - o))) by lia.
      rewrite IH by lia. simpl option_map.
      rewrite <- Hsk, skipn_skipn.
      now replace (s - o + n)%nat with (n + (s - o))%nat by lia.
  - rewrite skipn_all2 by lia. reflexivity.
Qed.

Lemma windows_more_fuel (A : Type) (s d : nat) :
  (0 < d)%nat ->
  forall (fuel fuel' : nat) (rest : list A),
    (length rest < fuel)%nat -> (length rest < fuel')%nat ->
    windows fuel s d rest = windows fuel' s d rest.
Proof.
  intros Hd. induction fuel as [|f IH]; intros fuel' rest H H'; [lia|].
  destruct fuel' as [|f']; [lia|]. simpl.
  destruct rest as [|c rest]; trivial.
  destruct (Nat.leb_spec (length (c :: rest)) s); trivial.
  f_equal. apply IH; rewrite length_skipn; simpl length in *; lia.
Qed.

(** The chunker on a valid configuration, in closed form. *)
Lemma chunk_text_fixed_size_windows (fuel : nat) (t : text) (S_ O_ : Z) :
  (0 <= O_ < S_)%Z -> (length t < fuel)%nat ->
  chunk_text_fixed_size fuel t S_ O_
  = Some (Ok (windows (enough t) (Z.to_nat S_) (Z.to_nat (S_ - O_)) t)).
Proof.
  intros HSO Hfuel. unfold chunk_text_fixed_size.
  destruct (Z.leb_spec S_ O_); [lia|].
  pose proof (@while_windows t (Z.to_nat S_) (Z.to_nat O_) ltac:(lia) fuel 0%nat) as Hw.
  rewrite !Z2Nat.id in Hw by lia. simpl Z.of_nat in Hw. rewrite Hw by lia.
  simpl skipn. do 2 f_equal.
  replace (Z.to_nat S_ - Z.to_nat O_)%nat with (Z.to_nat (S_ - O_)) by lia.
  apply windows_more_fuel; unfold enough; lia.
Qed.

(** ** Ceiling division *)

Lemma ceil_div_spec (a b : Z) :
  (0 < b)%Z -> ((ceil_div a b - 1) * b < a <= ceil_div a b * b)%Z.
Proof.
  intros Hb. unfold ceil_div.
  pose proof (Z.div_mod (- a) b ltac:(lia)) as Hdm.
  pose proof (Z.mod_pos_bound (- a) b Hb) as Hm.
  nia.
Qed.

Lemma ceil_div_unique (a b q : Z) :
  (0 < b)%Z -> ((q - 1) * b < a <= q * b)%Z -> ceil_div a b = q.
Proof.
  intros Hb Hq. pose proof (ceil_div_spec a Hb) as Hc. nia.
Qed.

Lemma ceil_div_one (a b : Z) : (0 < a <= b)%Z -> ceil_div a b = 1%Z.
Proof. intros H. apply ceil_div_unique; lia. Qed.

Lemma ceil_div_step (a b : Z) :
  (0 < b)%Z -> ceil_div a b = (ceil_div (a - b) b + 1)%Z.
Proof.
  intros Hb. apply ceil_div_unique; trivial.
  pose proof (ceil_div_spec (a - b) Hb). nia.
Qed.

(** ** Windows *)

Section WindowFacts.

Variable A : Type.
Variables s o : nat.
Hypothesis Hos : (o < s)%nat.

Let d : nat := (s - o)%nat.

Lemma windows_nil (fuel : nat) : windows fuel s d (@nil A) = [].
Proof. destruct fuel; reflexivity. Qed.

Lemma windows_short (fuel : nat) (rest : list A) :
  (0 < length rest <= s)%nat -> (length rest < fuel)%nat ->
  windows fuel s d rest = [rest].
Proof.
  intros Hlen Hfuel. destruct fuel as [|f]; [lia|].
  destruct rest as [|c rest]; [simpl in Hlen; lia|].
  cbn [windows]. destruct (Nat.leb_spec (length (c :: rest)) s); [|lia].
  now rewrite firstn_all2 by lia.
Qed.

Lemma windows_long (fuel : nat) (rest : list A) :
  (s < length rest)%nat -> (length rest < fuel)%nat ->
  exists f, fuel = S f /\ (length (skipn d rest) < f)%nat
            /\ windows fuel s d rest = firstn s rest :: windows f s d (skipn d rest).
Proof.
  intros Hlen Hfuel. destruct fuel as [|f]; [lia|]. exists f.
  destruct rest as [|c rest]; [simpl in Hlen; lia|].
  cbn [windows]. destruct (Nat.leb_spec (length (c :: rest)) s); [lia|].
  rewrite length_skipn. repeat split; trivial. subst d. lia.
Qed.

(** Every window but the first, cut at [o], continues where the window
    before it stopped. *)
Lemma windows_tails (fuel : nat) :
  forall rest : list A,
    (length rest < fuel)%nat ->
    concat (map (skipn o) (windows fuel s d rest)) = skipn o rest.
Proof.
  induction fuel as [|f IH]; intros rest Hfuel; [lia|].
  destruct (Nat.le_gt_cases (length rest) s) as [Hle|Hgt].
  - destruct rest as [|c rest]; [now rewrite skipn_nil|].
    rewrite windows_short by (simpl length in *; lia).
    simpl. apply app_nil_r.
  - destruct (windows_long rest Hgt Hfuel) as (f' & Hf & Hsk & ->).
    injection Hf as <-. cbn [map concat]. rewrite IH by trivial.
    rewrite skipn_skipn.
    replace (o + d)%nat with s by (subst d; lia).
    rewrite <- (firstn_skipn s rest) at 3.
    rewrite skipn_app, length_firstn.
    replace (o - Nat.min s (length rest))%nat with 0%nat by lia.
    reflexivity.
Qed.

Lemma windows_reconstruct (fuel : nat) (rest : list A) :
  (length rest < fuel)%nat ->
  match windows fuel s d rest with
  | [] => []
  | c :: cs => c ++ concat (map (skipn o) cs)
  end = rest.
Proof.
  intros Hfuel. destruct (Nat.le_gt_cases (length rest) s) as [Hle|Hgt].
  - destruct rest as [|c rest]; [now rewrite windows_nil|].
    rewrite windows_short by (simpl length in *; lia).
    simpl. now rewrite app_nil_r.
  - destruct (windows_long rest Hgt Hfuel) as (f & _ & Hsk & ->).
    rewrite windows_tails by trivial. rewrite skipn_skipn.
    replace (o + d)%nat with s by (subst d; lia).
    apply firstn_skipn.
Qed.

Lemma windows_count (fuel : nat) :
  forall rest : list A,
    (length rest < fuel)%nat -> (o < length rest)%nat ->
    Z.of_nat (length (windows fuel s d rest))
    = ceil_div (Z.of_nat (length rest) - Z.of_nat o) (Z.of_nat s - Z.of_nat o).
Proof.
  induction fuel as [|f IH]; intros rest Hfuel Ho; [lia|].
  destruct (Nat.le_gt_cases (length rest) s) as [Hle|Hgt].
  - rewrite windows_short by lia. simpl length.
    symmetry. apply ceil_div_one. lia.
  - destruct (windows_long rest Hgt Hfuel) as (f' & Hf & Hsk & ->).
    injection Hf as <-. simpl length. rewrite Nat2Z.inj_succ.
    rewrite IH; trivial; rewrite length_skipn; subst d; [|lia].
    rewrite (@ceil_div_step (Z.of_nat (length rest) - Z.of_nat o)) by lia.
    replace (Z.of_nat (length rest - (s - o)) - Z.of_nat o)%Z
      with (Z.of_nat (length rest) - Z.of_nat o - (Z.of_nat s - Z.of_nat o))%Z by lia.
    lia.
Qed.

Lemma windows_overlap (fuel : nat) :
  forall (rest : list A) (i : nat) (a b : list A),
    (length rest < fuel)%nat ->
    nth_error (windows fuel s d rest) i = Some a ->
    nth_error (windows fuel s d rest) (S i) = Some b ->
    skipn (length a - o) a = firstn o b.
Proof.
  induction fuel as [|f IH]; intros rest i a b Hfuel Ha Hb; [lia|].
  destruct (Nat.le_gt_cases (length rest) s) as [Hle|Hgt].
  - destruct rest as [|c rest]; [rewrite windows_nil in Ha; destruct i; discriminate|].
    rewrite windows_short in Hb by (simpl length in *; lia).
    destruct i; discriminate.
  - destruct (windows_long rest Hgt Hfuel) as (f' & Hf & Hsk & Hw).
    injection Hf as <-. rewrite Hw in Ha, Hb. simpl in Hb.
    destruct i as [|i]; [|simpl in Ha; eapply IH; eauto].
    injection Ha as <-.
    assert (Hrest' : (o < length (skipn d rest))%nat)
      by (rewrite length_skipn; subst d; lia).
    destruct (Nat.le_gt_cases (length (skipn d rest)) s) as [Hle'|Hgt'].
    + rewrite windows_short in Hb by lia. injection Hb as <-.
      rewrite length_firstn, Nat.min_l by lia.
      fold d. rewrite skipn_firstn_comm.
      replace (s - d)%nat with o by (subst d; lia). reflexivity.
    + destruct (windows_long _ Hgt' Hsk) as (f'' & _ & _ & Hw').
      rewrite Hw' in Hb. injection Hb as <-.
      rewrite length_firstn, Nat.min_l by lia.
      fold d. rewrite skipn_firstn_comm.
      replace (s - d)%nat with o by (subst d; lia).
      rewrite firstn_firstn, Nat.min_l by lia. reflexivity.
Qed.

Lemma windows_width (fuel : nat) :
  forall rest : list A,
    Forall (fun c => (length c <= s)%nat) (windows fuel s d rest).
Proof.
  induction fuel as [|f IH]; intros rest; [constructor|].
  destruct rest as [|c rest]; [constructor|]. cbn [windows].
  constructor; [rewrite length_firstn; lia|].
  destruct (length (c :: rest) <=? s)%nat; [constructor|apply IH].
Qed.

(** The last window is what remains of the text at the last cursor. *)
Lemma windows_last (fuel : nat) :
  forall rest : list A,
    (length rest < fuel)%nat -> rest <> [] ->
    last (windows fuel s d rest) []
    = skipn ((length (windows fuel s d rest) - 1) * d) rest.
Proof.
  induction fuel as [|f IH]; intros rest Hfuel Hne; [lia|].
  destruct (Nat.le_gt_cases (length rest) s) as [Hle|Hgt].
  - destruct rest as [|c rest]; [congruence|].
    rewrite windows_short by (simpl length in *; lia). reflexivity.
  - destruct (windows_long rest Hgt Hfuel) as (f' & Hf & Hsk & ->).
    injection Hf as <-.
    assert (Hne' : skipn d rest <> []).
    { intros E. apply (f_equal (@length A)) in E.
      rewrite length_skipn in E. simpl in E. subst d. lia. }
    assert (Hw : windows f s d (skipn d rest) <> []).
    { destruct f as [|f]; [lia|]. destruct (skipn d rest); [congruence|]. discriminate. }
    destruct (windows f s d (skipn d rest)) as [|w ws] eqn:E; [congruence|].
    change (last (firstn s rest :: w :: ws) []) with (last (w :: ws) []).
    rewrite <- E, IH by trivial. rewrite skipn_skipn. f_equal.
    rewrite E. simpl length. lia.
Qed.

(** The last cursor lies inside the text. *)
Lemma windows_last_cursor (fuel : nat) :
  forall rest : list A,
    (length rest < fuel)%nat -> rest <> [] ->
    (1 <= length (windows fuel s d rest))%nat
    /\ ((length (windows fuel s d rest) - 1) * d < length rest)%nat.
Proof.
  induction fuel as [|f IH]; intros rest Hfuel Hne; [lia|].
  assert (Hpos : (0 < length rest)%nat) by (destruct rest; [congruence|simpl; lia]).
  destruct (Nat.le_gt_cases (length rest) s) as [Hle|Hgt].
  - rewrite windows_short by lia. simpl. lia.
  - destruct (windows_long rest Hgt Hfuel) as (f' & Hf & Hsk & ->).
    injection Hf as <-.
    assert (Hne' : skipn d rest <> []).
    { intros E. apply (f_equal (@length A)) in E.
      rewrite length_skipn in E. simpl in E. subst d. lia. }
    destruct (IH _ Hsk Hne') as [H1 H2].
    rewrite length_skipn in H2. simpl length. split; [lia|].
    assert (Hd : (d <= length rest)%nat) by (subst d; lia).
    nia.
Qed.

End WindowFacts.

(** ** Fixed-size chunker: termination and configuration check *)

(** C10. Whenever [chunk_size > overlap], also for zero or negative values,
    the loop of [chunk_text_fixed_size] terminates: every pass through the
    body breaks or advances the cursor by the stride
    [chunk_size - overlap >= 1], and with fuel above the length of the text
    the function returns a list of chunks. *)
Theorem chunk_text_fixed_size_terminates (t : text) (chunk_size overlap : Z) :
  (chunk_size > overlap)%Z ->
  (1 <= chunk_size - overlap)%Z
  /\ (forall (start : Z) (chunks : list text),
         (exists chunks', Fixed.body t chunk_size overlap start chunks = Fixed.Break chunks')
         \/ (exists chunks',
                Fixed.body t chunk_size overlap start chunks
                = Fixed.Continue (start + (chunk_size - overlap)) chunks'))
  /\ (forall fuel : nat,
         (length t < fuel)%nat ->
         exists chunks, chunk_text_fixed_size fuel t chunk_size overlap = Some (Ok chunks)).
Proof.
  intros Hgt. split; [lia|]. split; [intros; apply body_progress|].
  intros fuel Hfuel. unfold chunk_text_fixed_size.
  destruct (Z.leb_spec chunk_size overlap); [lia|].
  destruct (@while_terminates t chunk_size overlap ltac:(lia) fuel 0%Z [])
    as [r ->]; [unfold len; lia|].
  eauto.
Qed.

Lemma chunk_text_fixed_size_terminates_witness :
  (-1 > -5)%Z
  /\ exists chunks,
      chunk_text_fixed_size 11 (str "abcdefghij") (-1) (-5) = Some (Ok chunks).
Proof.
  split; [lia|].
  apply (chunk_text_fixed_size_terminates (str "abcdefghij") (chunk_size := -1)
           (overlap := -5)); [lia|simpl; lia].
Defined.

(** C4, as the code has it. [chunk_text_fixed_size] fails with
    InvalidChunkConfig, whatever the fuel and so before any chunk exists,
    exactly when [chunk_size <= overlap]; a zero or negative size or overlap
    with [chunk_size > overlap] is accepted: nothing is raised, and with
    fuel above the length of the text a list of chunks is returned. *)
Theorem chunk_text_fixed_size_invalid_config (fuel : nat) (t : text)
        (chunk_size overlap : Z) :
  (chunk_text_fixed_size fuel t chunk_size overlap = Some (Raise InvalidChunkConfig)
   <-> (chunk_size <= overlap)%Z)
  /\ ((exists e, chunk_text_fixed_size fuel t chunk_size overlap = Some (Raise e))
      <-> (chunk_size <= overlap)%Z)
  /\ ((chunk_size > overlap)%Z -> (length t < fuel)%nat ->
      exists chunks, chunk_text_fixed_size fuel t chunk_size overlap = Some (Ok chunks)).
Proof.
  unfold chunk_text_fixed_size.
  destruct (Z.leb_spec chunk_size overlap) as [Hle|Hgt].
  - repeat split; eauto. intros; lia.
  - split; [|split].
    + destruct (Fixed.while fuel t chunk_size overlap 0 []);
        (split; [intros H; discriminate|intros; lia]).
    + destruct (Fixed.while fuel t chunk_size overlap 0 []);
        (split; [intros [e H]; discriminate|intros; lia]).
    + intros _ Hfuel.
      destruct (@while_terminates t chunk_size overlap Hgt fuel 0%Z [])
        as [r ->]; [unfold len; lia|].
      eauto.
Qed.

Lemma chunk_text_fixed_size_invalid_config_witness :
  (-2 > -5)%Z /\ (length (str "abc") < 4)%nat
  /\ exists chunks, chunk_text_fixed_size 4 (str "abc") (-2) (-5) = Some (Ok chunks).
Proof.
  split; [lia|]. split; [simpl; lia|].
  apply (proj2 (proj2 (chunk_text_fixed_size_invalid_config 4 (str "abc") (-2) (-5))));
    [lia|simpl; lia].
Defined.

(** C4 as stated fails: with [chunk_size = 2] and [overlap = 0] (a zero
    overlap), with [chunk_size = 0] and [overlap = -1] (a zero size), and
    with [chunk_size = -1] or [-2] and [overlap = -5] (both negative),
    chunks are returned and nothing is raised. *)
Lemma chunk_text_fixed_size_accepts_nonpositive :
  chunk_text_fixed_size 4 (str "abc") 2 0 = Some (Ok [str "ab"; str "c"])
  /\ chunk_text_fixed_size 4 (str "abc") 0 (-1) = Some (Ok [[]; []; []])
  /\ chunk_text_fixed_size 4 (str "abc") (-1) (-5) = Some (Ok [str "ab"])
  /\ chunk_text_fixed_size 4 (str "abc") (-2) (-5) = Some (Ok [str "a"])
  /\ ~ (forall (t : text) (S_ O_ : Z),
           (S_ <= O_ \/ S_ <= 0 \/ O_ <= 0)%Z ->
           chunk_text_fixed_size (enough t) t S_ O_ = Some (Raise InvalidChunkConfig)).
Proof.
  split; [reflexivity|]. split; [reflexivity|]. split; [reflexivity|].
  split; [reflexivity|].
  intros H. specialize (H (str "abc") 2%Z 0%Z ltac:(lia)). discriminate H.
Qed.

(** ** Fixed-size chunker on a valid configuration *)

(** C1. For [S > O > 0] the chunks of a text, the first whole and every
    later one from offset [O] on, concatenate to the text. *)
Theorem fixed_size_reconstruction (fuel : nat) (t : text) (S_ O_ : Z) :
  (S_ > O_)%Z -> (O_ > 0)%Z -> (length t < fuel)%nat ->
  exists cs,
    chunk_text_fixed_size fuel t S_ O_ = Some (Ok cs)
    /\ reconstruct O_ cs = t.
Proof.
  intros HS HO Hfuel. eexists. split.
  - apply chunk_text_fixed_size_windows; lia.
  - unfold reconstruct.
    pose proof (@windows_reconstruct char (Z.to_nat S_) (Z.to_nat O_) ltac:(lia)
                  (enough t) t ltac:(unfold enough; lia)) as Hr.
    replace (Z.to_nat S_ - Z.to_nat O_)%nat with (Z.to_nat (S_ - O_)) in Hr by lia.
    destruct (windows (enough t) (Z.to_nat S_) (Z.to_nat (S_ - O_)) t) as [|c cs];
      trivial.
    etransitivity; [|exact Hr]. f_equal. f_equal.
    apply map_ext. intros x.
    rewrite <- (Z2Nat.id O_) at 1 by lia. apply slice_from_skipn.
Qed.

Lemma fixed_size_reconstruction_witness :
  (4 > 1)%Z /\ (1 > 0)%Z /\ (length (str "abcdefghijk") < 12)%nat
  /\ exists cs,
      chunk_text_fixed_size 12 (str "abcdefghijk") 4 1 = Some (Ok cs)
      /\ reconstruct 1 cs = str "abcdefghijk".
Proof.
  split; [lia|]. split; [lia|]. split; [simpl; lia|].
  apply (@fixed_size_reconstruction 12 (str "abcdefghijk") 4 1); [lia|lia|simpl; lia].
Defined.

(** C2. For [S > O > 0] a text of length [L] gives
    [ceil((L - O) / (S - O))] chunks when [L > O], and one chunk when
    [0 < L <= S]. *)
Theorem fixed_size_count (fuel : nat) (t : text) (S_ O_ : Z) :
  (S_ > O_)%Z -> (O_ > 0)%Z -> (length t < fuel)%nat ->
  exists cs,
    chunk_text_fixed_size fuel t S_ O_ = Some (Ok cs)
    /\ ((len t > O_)%Z -> len cs = ceil_div (len t - O_) (S_ - O_))
    /\ ((0 < len t <= S_)%Z -> length cs = 1%nat).
Proof.
  intros HS HO Hfuel. eexists. split; [apply chunk_text_fixed_size_windows; lia|].
  unfold len. split.
  - intros HL.
    pose proof (@windows_count char (Z.to_nat S_) (Z.to_nat O_) ltac:(lia)
                  (enough t) t ltac:(unfold enough; lia) ltac:(lia)) as Hc.
    replace (Z.to_nat S_ - Z.to_nat O_)%nat with (Z.to_nat (S_ - O_)) in Hc by lia.
    rewrite !Z2Nat.id in Hc by lia. exact Hc.
  - intros HL.
    pose proof (@windows_short char (Z.to_nat S_) (Z.to_nat O_) ltac:(lia)
                  (enough t) t ltac:(lia) ltac:(unfold enough; lia)) as Hc.
    replace (Z.to_nat S_ - Z.to_nat O_)%nat with (Z.to_nat (S_ - O_)) in Hc by lia.
    now rewrite Hc.
Qed.

Lemma fixed_size_count_witness :
  (4 > 1)%Z /\ (1 > 0)%Z /\ (length (str "abcdefghijk") < 12)%nat
  /\ exists cs,
      chunk_text_fixed_size 12 (str "abcdefghijk") 4 1 = Some (Ok cs)
      /\ ((len (str "abcdefghijk") > 1)%Z
          -> len cs = ceil_div (len (str "abcdefghijk") - 1) (4 - 1))
      /\ ((0 < len (str "abcdefghijk") <= 4)%Z -> length cs = 1%nat).
Proof.
  split; [lia|]. split; [lia|]. split; [simpl; lia|].
  apply (@fixed_size_count 12 (str "abcdefghijk") 4 1); [lia|lia|simpl; lia].
Defined.

(** Every consecutive pair of chunks overlaps in [O] characters, the final
    pair included: a chunk after the first is always longer than [O]. *)
Lemma every_pair_overlaps (fuel : nat) (t : text) (S_ O_ : Z) :
  (S_ > O_)%Z -> (O_ > 0)%Z -> (length t < fuel)%nat ->
  exists cs,
    chunk_text_fixed_size fuel t S_ O_ = Some (Ok cs)
    /\ forall (i : nat) (a b : text),
        nth_error cs i = Some a -> nth_error cs (S i) = Some b ->
        slice_from a (- O_) = slice_to b O_.
Proof.
  intros HS HO Hfuel. eexists. split; [apply chunk_text_fixed_size_windows; lia|].
  intros i a b Ha Hb.
  replace (Z.to_nat (S_ - O_)) with (Z.to_nat S_ - Z.to_nat O_)%nat in Ha, Hb by lia.
  pose proof (@windows_overlap char (Z.to_nat S_) (Z.to_nat O_) ltac:(lia)
                (enough t) t i a b ltac:(unfold enough; lia) Ha Hb) as Hov.
  rewrite <- (Z2Nat.id O_) by lia.
  rewrite slice_from_last by lia. rewrite slice_to_firstn. exact Hov.
Qed.

(** C5. For [S > O > 0] and every consecutive pair of chunks other than the
    final pair, the last [O] characters of the first, [c[i][-O:]], are the
    first [O] characters of the second, [c[i+1][:O]]. *)
Theorem fixed_size_overlap (fuel : nat) (t : text) (S_ O_ : Z) :
  (S_ > O_)%Z -> (O_ > 0)%Z -> (length t < fuel)%nat ->
  exists cs,
    chunk_text_fixed_size fuel t S_ O_ = Some (Ok cs)
    /\ forall (i : nat) (a b : text),
        nth_error cs i = Some a -> nth_error cs (S i) = Some b ->
        (S (S i) < length cs)%nat ->
        slice_from a (- O_) = slice_to b O_.
Proof.
  intros HS HO Hfuel.
  destruct (every_pair_overlaps t HS HO Hfuel) as (cs & Hcs & Hov).
  exists cs. split; trivial. intros i a b Ha Hb _. eauto.
Qed.

Lemma fixed_size_overlap_witness :
  (4 > 1)%Z /\ (1 > 0)%Z /\ (length (str "abcdefghijk") < 12)%nat
  /\ exists cs,
      chunk_text_fixed_size 12 (str "abcdefghijk") 4 1 = Some (Ok cs)
      /\ forall (i : nat) (a b : text),
          nth_error cs i = Some a -> nth_error cs (S i) = Some b ->
          (S (S i) < length cs)%nat ->
          slice_from a (- (1)) = slice_to b 1.
Proof.
  split; [lia|]. split; [lia|]. split; [simpl; lia|].
  apply (@fixed_size_overlap 12 (str "abcdefghijk") 4 1); [lia|lia|simpl; lia].
Defined.

(** C6. For [S > O > 0]: the empty text gives no chunk; a text of at most
    [S] characters gives itself as the only chunk; no chunk is longer than
    [S], and the last chunk is the text from the last cursor to its end, so
    shorter than [S] when less than [S] remains, with nothing added. *)
Theorem fixed_size_edge_cases (fuel : nat) (t : text) (S_ O_ : Z) :
  (S_ > O_)%Z -> (O_ > 0)%Z -> (length t < fuel)%nat ->
  exists cs,
    chunk_text_fixed_size fuel t S_ O_ = Some (Ok cs)
    /\ (t = [] -> cs = [])
    /\ ((0 < len t <= S_)%Z -> cs = [t])
    /\ Forall (fun c => (len c <= S_)%Z) cs
    /\ (t <> [] ->
        cs <> []
        /\ last cs [] = slice_from t ((len cs - 1) * (S_ - O_))
        /\ len (last cs []) = (len t - (len cs - 1) * (S_ - O_))%Z).
Proof.
  intros HS HO Hfuel. eexists. split; [apply chunk_text_fixed_size_windows; lia|].
  replace (Z.to_nat (S_ - O_)) with (Z.to_nat S_ - Z.to_nat O_)%nat by lia.
  assert (Hos : (Z.to_nat O_ < Z.to_nat S_)%nat) by lia.
  assert (He : (length t < enough t)%nat) by (unfold enough; lia).
  split; [intros ->; reflexivity|].
  split; [intros HL; unfold len in HL; apply windows_short; trivial; lia|].
  split.
  { eapply Forall_impl; [|apply windows_width; exact Hos].
    intros c Hc. unfold len. simpl in Hc. lia. }
  intros Hne.
  pose proof (@windows_last char _ _ Hos (enough t) t He Hne) as Hlast.
  pose proof (@windows_count char _ _ Hos (enough t) t He) as Hcount.
  set (ws := windows (enough t) (Z.to_nat S_) (Z.to_nat S_ - Z.to_nat O_) t) in *.
  assert (Hws : ws <> []).
  { subst ws. unfold enough. destruct t; [congruence|]. discriminate. }
  split; trivial.
  destruct (@windows_last_cursor char _ _ Hos (enough t) t He Hne) as [Hone Hin].
  fold ws in Hone, Hin.
  assert (Hidx : ((len ws - 1) * (S_ - O_))%Z
                 = Z.of_nat ((length ws - 1) * (Z.to_nat S_ - Z.to_nat O_))).
  { unfold len. rewrite Nat2Z.inj_mul, !Nat2Z.inj_sub by lia.
    now rewrite !Z2Nat.id by lia. }
  split.
  - rewrite Hidx, slice_from_skipn. exact Hlast.
  - rewrite Hlast. unfold len at 1. rewrite length_skipn.
    rewrite Hidx. unfold len. lia.
Qed.

Lemma fixed_size_edge_cases_witness :
  (4 > 1)%Z /\ (1 > 0)%Z /\ (length (str "abcdefghijk") < 12)%nat
  /\ exists cs,
      chunk_text_fixed_size 12 (str "abcdefghijk") 4 1 = Some (Ok cs)
      /\ (str "abcdefghijk" = [] -> cs = [])
      /\ ((0 < len (str "abcdefghijk") <= 4)%Z -> cs = [str "abcdefghijk"])
      /\ Forall (fun c => (len c <= 4)%Z) cs
      /\ (str "abcdefghijk" <> [] ->
          cs <> []
          /\ last cs [] = slice_from (str "abcdefghijk") ((len cs - 1) * (4 - 1))
          /\ len (last cs []) = (len (str "abcdefghijk") - (len cs - 1) * (4 - 1))%Z).
Proof.
  split; [lia|]. split; [lia|]. split; [simpl; lia|].
  apply (@fixed_size_edge_cases 12 (str "abcdefghijk") 4 1); [lia|lia|simpl; lia].
Defined.

(** A last chunk shorter than the chunk size, and one as long as it. *)
Example fixed_size_last_chunk_lengths :
  chunk_text_fixed_size 12 (str "abcdefghijk") 4 1
  = Some (Ok [str "abcd"; str "defg"; str "ghij"; str "jk"])
  /\ chunk_text_fixed_size 11 (str "abcdefghij") 4 1
     = Some (Ok [str "abcd"; str "defg"; str "ghij"]).
Proof. split; reflexivity. Qed.

(** The test of the repository: 2000 characters, size 1000, overlap 200. *)
Example fixed_size_of_test_app :
  let t := repeat 97%N 1000 ++ repeat 98%N 1000 in
  exists c0 c1 c2,
    chunk_text_fixed_size (enough t) t 1000 200 = Some (Ok [c0; c1; c2])
    /\ length c0 = 1000%nat
    /\ slice_from c0 (-200) = slice_to c1 200.
Proof.
  intros t. do 3 eexists. split; [vm_compute; reflexivity|].
  split; vm_compute; reflexivity.
Qed.

(** ** Strategy selector *)

Lemma text_eqb_eq (a b : text) : text_eqb a b = true <-> a = b.
Proof.
  revert b. induction a as [|x a IH]; intros [|y b]; simpl; split; intros H;
    try discriminate; trivial.
  - apply andb_true_iff in H as [Hx Ha]. apply N.eqb_eq in Hx. apply IH in Ha.
    now subst.
  - injection H as -> ->. apply andb_true_iff. split; [apply N.eqb_refl|now apply IH].
Qed.

(** C8. A strategy name other than ['fixed'], ['sentence'] and
    ['paragraph'] makes [chunk_text] fail with UnsupportedStrategy, whatever
    the text, the fuel and the sizes; each of the three names gives what the
    chunker of that name gives on the same arguments, and nothing else of
    the text is looked at. *)
Theorem chunk_text_dispatch (fuel : nat) (t strategy : text) (chunk_size overlap : Z) :
  (strategy <> str "fixed" -> strategy <> str "sentence" ->
   strategy <> str "paragraph" ->
   chunk_text fuel t strategy chunk_size overlap
   = Some (Raise (UnsupportedStrategy strategy)))
  /\ chunk_text fuel t (str "fixed") chunk_size overlap
     = chunk_text_fixed_size fuel t chunk_size overlap
  /\ chunk_text fuel t (str "sentence") chunk_size overlap
     = Some (Ok (chunk_text_by_sentences t))
  /\ chunk_text fuel t (str "paragraph") chunk_size overlap
     = Some (Ok (chunk_text_by_paragraphs t)).
Proof.
  split; [|repeat split].
  intros Hf Hs Hp. unfold chunk_text.
  destruct (text_eqb strategy (str "fixed")) eqn:Ef;
    [apply text_eqb_eq in Ef; contradiction|].
  destruct (text_eqb strategy (str "sentence")) eqn:Es;
    [apply text_eqb_eq in Es; contradiction|].
  destruct (text_eqb strategy (str "paragraph")) eqn:Ep;
    [apply text_eqb_eq in Ep; contradiction|].
  reflexivity.
Qed.

Lemma chunk_text_dispatch_witness :
  chunk_text 2 (str "x") (str "nonsense") 1000 200
  = Some (Raise (UnsupportedStrategy (str "nonsense"))).
Proof.
  apply (proj1 (chunk_text_dispatch 2 (str "x") (str "nonsense") 1000 200));
    intros H; discriminate H.
Defined.

(** ** Sentence chunker *)

Lemma has_boundary_snoc (l : text) (c : char) :
  has_boundary (l ++ [c]) ->
  has_boundary l
  \/ exists l' d, l = l' ++ [d] /\ Sentence.is_sentence_end d = true /\ is_space c = true.
Proof.
  intros (l1 & d & c' & l2 & E & Hd & Hc).
  destruct (exists_last (l := d :: c' :: l2) ltac:(discriminate)) as (m & x & Em).
  destruct l2 as [|y l2].
  - change (l1 ++ [d; c']) with (l1 ++ [d] ++ [c']) in E.
    rewrite app_assoc in E. apply app_inj_tail in E as [-> ->]. right. eauto.
  - destruct (exists_last (l := y :: l2) ltac:(discriminate)) as (m' & x' & Em').
    rewrite Em' in E.
    change (l1 ++ d :: c' :: m' ++ [x']) with (l1 ++ (d :: c' :: m') ++ [x']) in E.
    rewrite app_assoc in E. apply app_inj_tail in E as [-> _].
    left. exists l1, d, c', m'. auto.
Qed.

Lemma no_boundary_short (l : text) : (length l <= 1)%nat -> ~ has_boundary l.
Proof.
  intros Hl (l1 & d & c & l2 & -> & _). rewrite length_app in Hl. simpl in Hl. lia.
Qed.

Lemma scan_head (t : text) :
  forall (b : bool) (prev : option char) (piece sep : text),
  exists x y tl, Sentence.scan b prev piece sep t = (rev piece ++ x, y) :: tl.
Proof.
  induction t as [|c t IH]; intros b prev piece sep; simpl.
  - destruct b; exists []; rewrite app_nil_r; eauto.
  - destruct (is_space c && (b || Sentence.lookbehind prev)).
    + apply IH.
    + destruct b.
      * exists []. rewrite app_nil_r. eauto.
      * destruct (IH false (Some c) (c :: piece) []) as (x & y & tl & ->).
        exists (c :: x), y, tl. simpl. now rewrite <- app_assoc.
Qed.

(** The pieces and the matches, in their order, are the text. *)
Lemma scan_concat (t : text) :
  forall (b : bool) (prev : option char) (piece sep : text),
    (b = false -> sep = []) ->
    concat (map (fun ps => fst ps ++ snd ps) (Sentence.scan b prev piece sep t))
    = rev piece ++ rev sep ++ t.
Proof.
  induction t as [|c t IH]; intros b prev piece sep Hsep; simpl.
  - destruct b; simpl.
    + now rewrite !app_nil_r.
    + rewrite Hsep by trivial. simpl. now rewrite !app_nil_r.
  - destruct (is_space c && (b || Sentence.lookbehind prev)).
    + rewrite IH by discriminate. simpl. now rewrite <- !app_assoc.
    + destruct b; simpl.
      * rewrite IH by trivial. simpl. now rewrite <- !app_assoc.
      * rewrite IH by trivial. rewrite Hsep by trivial. simpl.
        now rewrite <- !app_assoc.
Qed.

Lemma well_split_cons (p sep p' sep' : text) (tl : list (text * text)) :
  ~ has_boundary p ->
  (exists d, ends_with d p /\ Sentence.is_sentence_end d = true) ->
  sep <> [] -> Forall (fun c => is_space c = true) sep -> lstrip p' = p' ->
  well_split ((p', sep') :: tl) ->
  well_split ((p, sep) :: (p', sep') :: tl).
Proof.
  intros H1 H2 H3 H4 H5 H6.
  change (~ has_boundary p
          /\ ((exists d, ends_with d p /\ Sentence.is_sentence_end d = true)
              /\ sep <> [] /\ Forall (fun c => is_space c = true) sep
              /\ lstrip p' = p')
          /\ well_split ((p', sep') :: tl)).
  tauto.
Qed.

Lemma rev_not_nil (A : Type) (l : list A) : l <> [] -> rev l <> [].
Proof.
  intros Hne E. apply (f_equal (@rev A)) in E. rewrite rev_involutive in E.
  now apply Hne.
Qed.

Lemma scan_well_split (t : text) :
  forall (b : bool) (prev : option char) (piece sep : text),
    scan_inv b prev piece sep ->
    well_split (Sentence.scan b prev piece sep t).
Proof.
  induction t as [|c t IH]; intros b prev piece sep [Hnb Hst]; simpl.
  - destruct b.
    + destruct Hst as ((d & piece' & -> & Hd) & Hne & Hsp).
      simpl. repeat split; trivial.
      * exists d. split; [exists (rev piece'); reflexivity|trivial].
      * intros E. apply (f_equal (@rev char)) in E. rewrite rev_involutive in E.
        now apply Hne.
      * now apply Forall_rev.
      * apply no_boundary_short. simpl. lia.
    + simpl. tauto.
  - destruct (is_space c && (b || Sentence.lookbehind prev)) eqn:Hc.
    + apply IH. apply andb_true_iff in Hc as [Hc Hb]. split; trivial.
      destruct b.
      * destruct Hst as (Hd & Hne & Hsp). repeat split; trivial; [discriminate|].
        now constructor.
      * destruct Hst as (-> & ->). simpl in Hb.
        destruct piece as [|d piece']; [discriminate|]. simpl in Hb.
        repeat split; [eauto|discriminate|now constructor].
    + destruct b.
      * simpl in Hc. rewrite andb_true_r in Hc.
        destruct Hst as ((d & piece' & -> & Hd) & Hne & Hsp).
        assert (Hnext : well_split (Sentence.scan false (Some c) [c] [] t)).
        { apply IH. split; [apply no_boundary_short; simpl; lia|]. now split. }
        destruct (scan_head t false (Some c) [c] []) as (x & y & tl & E).
        rewrite E in *. apply well_split_cons; trivial.
        -- exists d. split; [exists (rev piece'); reflexivity|trivial].
        -- now apply rev_not_nil.
        -- now apply Forall_rev.
        -- simpl. now rewrite Hc.
      * apply IH. destruct Hst as (-> & ->). split; [|now split].
        simpl. intros Hb. apply has_boundary_snoc in Hb as [Hb|(l' & d & E & Hd & Hsp)];
          [contradiction|].
        apply (f_equal (@rev char)) in E. rewrite rev_involutive, rev_app_distr in E.
        subst piece. simpl in Hc. rewrite Hd, Hsp in Hc. discriminate.
Qed.

(** Trimming keeps a last character that is not whitespace, and removes one
    that is. *)
Lemma lstrip_snoc (p : text) (d : char) :
  is_space d = false -> lstrip (p ++ [d]) = lstrip p ++ [d].
Proof.
  intros Hd. induction p as [|c p IH]; simpl.
  - now rewrite Hd.
  - destruct (is_space c); trivial.
Qed.

Lemma strip_snoc (p : text) (d : char) :
  is_space d = false -> strip (p ++ [d]) = lstrip p ++ [d].
Proof.
  intros Hd. unfold strip, rstrip. rewrite lstrip_snoc by trivial.
  rewrite rev_app_distr. simpl. rewrite Hd. simpl. now rewrite rev_involutive.
Qed.

Lemma rstrip_snoc_space (p : text) (c : char) :
  is_space c = true -> rstrip (p ++ [c]) = rstrip p.
Proof.
  intros Hc. unfold rstrip. rewrite rev_app_distr. simpl. now rewrite Hc.
Qed.

Lemma strip_nonempty_in (pieces : list text) (p : text) :
  In p pieces -> strip p <> [] -> In (strip p) (strip_nonempty pieces).
Proof.
  intros Hin Hne. unfold strip_nonempty. apply in_map. apply filter_In.
  split; trivial. destruct (strip p); [congruence|reflexivity].
Qed.

(** C7, as the code has it. [chunk_text_by_sentences] splits at the
    boundaries where ['.'], ['!'], ['?'] or a newline is followed by
    whitespace: the pieces and the whitespace runs removed between them make
    up the text, every run follows a sentence end that stays at the tail of
    the piece before it, and no piece has a boundary left inside. The chunks
    are the pieces trimmed, the empty ones dropped; trimming leaves a final
    ['.'], ['!'] or ['?'] in place and removes a final newline. The text
    ["First sentence. Second sentence! Third sentence?"] gives three chunks
    with their punctuation. *)
Theorem sentence_chunks_split_at_boundaries :
  (forall t : text,
      let segs := Sentence.scan false None [] [] t in
      Sentence.re_split t = map fst segs
      /\ concat (map (fun ps => fst ps ++ snd ps) segs) = t
      /\ well_split segs
      /\ chunk_text_by_sentences t
         = map strip (filter (fun s => truthy (strip s)) (Sentence.re_split t))
      /\ (forall (p : text) (d : char),
             In (p ++ [d]) (Sentence.re_split t) ->
             (d = 46 \/ d = 33 \/ d = 63)%N ->
             strip (p ++ [d]) = lstrip p ++ [d]
             /\ In (lstrip p ++ [d]) (chunk_text_by_sentences t))
      /\ (forall p : text, strip (p ++ nl) = strip p))
  /\ chunk_text_by_sentences (str "First sentence. Second sentence! Third sentence?")
     = [str "First sentence."; str "Second sentence!"; str "Third sentence?"].
Proof.
  split; [|reflexivity].
  intros t segs. split; [reflexivity|].
  split; [apply (@scan_concat t false None [] []); trivial|].
  split.
  { apply scan_well_split. split; [apply no_boundary_short; simpl; lia|now split]. }
  split; [reflexivity|]. split.
  - intros p d Hin Hd.
    assert (Hns : is_space d = false) by (destruct Hd as [->|[->| ->]]; reflexivity).
    split; [now apply strip_snoc|].
    rewrite <- (@strip_snoc p d Hns). apply strip_nonempty_in; trivial.
    rewrite strip_snoc by trivial. now destruct (lstrip p).
  - intros p. unfold strip. rewrite <- rstrip_snoc_space with (c := 10%N) by reflexivity.
    unfold rstrip, nl.
    assert (E : forall q, lstrip (rev (lstrip q ++ [10%N])) = lstrip (rev (lstrip q)))
      by (intros q; rewrite rev_app_distr; reflexivity).
    rewrite E.
    assert (E' : forall q, lstrip (rev (lstrip (q ++ [10%N]))) = lstrip (rev (lstrip q))).
    { induction q as [|c q IHq]; [reflexivity|]. simpl.
      destruct (is_space c); [exact IHq|].
      simpl. rewrite rev_app_distr. reflexivity. }
    now rewrite E'.
Qed.

Lemma sentence_chunks_split_at_boundaries_witness :
  In (str "a" ++ [46%N]) (Sentence.re_split (str "a. b"))
  /\ In (str "a.") (chunk_text_by_sentences (str "a. b")).
Proof.
  split; [now left|].
  destruct (proj1 sentence_chunks_split_at_boundaries (str "a. b"))
    as (_ & _ & _ & _ & H & _).
  apply (H (str "a") 46%N); now left.
Defined.

(** C7 as stated fails at a newline delimiter: in ["a\n b"] the newline is
    followed by a space and the text is split there, but the chunk before
    the split is ["a"], without the newline. *)
Lemma sentence_newline_delimiter_not_retained :
  let t := str "a" ++ nl ++ str " b" in
  Sentence.re_split t = [str "a" ++ nl; str "b"]
  /\ Sentence.re_findall t = [str " "]
  /\ chunk_text_by_sentences t = [str "a"; str "b"]
  /\ ~ (exists c, nth_error (chunk_text_by_sentences t) 0 = Some c /\ ends_with 10%N c).
Proof.
  repeat split.
  intros (c & Hc & (c' & E)). vm_compute in Hc. injection Hc as <-.
  destruct c' as [|x [|y c']]; discriminate E.
Qed.

(** ** Chunk pipeline *)

Section PipelineFacts.

Variable F : Type.
Variable embed : Pipeline.provider F.
Variables base_name split_strategy : text.

Lemma each_chunk_files (w : bool) (n : nat) (chunks : list text) :
  forall i : nat,
    map fst (fst (Pipeline.each_chunk embed w n i chunks))
    = map Pipeline.chunk_filename (seq i (length chunks)).
Proof.
  induction chunks as [|chunk rest IH]; intros i; [reflexivity|].
  simpl. specialize (IH (S i)).
  destruct (Pipeline.each_chunk embed w n (S i) rest) as [files entries].
  simpl in IH. unfold Pipeline.generate_embedding.
  destruct w; [destruct (embed i chunk) as [[|x v]|]|]; simpl; now rewrite IH.
Qed.

Lemma each_chunk_rows (n : nat) (rest : list text) :
  forall (pre : list text) (i : nat),
    i = S (length pre) ->
    map (Pipeline.db_row (pre ++ rest) base_name split_strategy)
        (snd (Pipeline.each_chunk embed true n i rest))
    = rows_of embed base_name split_strategy i rest.
Proof.
  induction rest as [|chunk rest IH]; intros pre i Hi; [reflexivity|].
  simpl. specialize (IH (pre ++ [chunk]) (S i)).
  rewrite <- app_assoc in IH. simpl in IH.
  rewrite length_app in IH. simpl in IH. specialize (IH ltac:(lia)).
  destruct (Pipeline.each_chunk embed true n (S i) rest) as [files entries].
  simpl in IH. unfold Pipeline.generate_embedding.
  destruct (embed i chunk) as [[|x v]|]; simpl; trivial.
  rewrite IH. f_equal. unfold Pipeline.db_row, Pipeline.chunk_of_id. simpl.
  f_equal. subst i. simpl. rewrite Nat.sub_0_r. apply nth_middle.
Qed.

Lemma rows_of_have_vectors (chunks : list text) :
  forall i : nat,
    Forall (fun r => Pipeline.has_vector (Pipeline.embedding_col r) = true)
           (rows_of embed base_name split_strategy i chunks).
Proof.
  induction chunks as [|chunk rest IH]; intros i; simpl; [constructor|].
  destruct (embed i chunk) as [[|x v]|]; simpl; auto.
Qed.

(** What [save_chunks] leaves in a reachable store when embeddings and the
    store are configured. *)
Lemma save_chunks_database (db : list (Pipeline.row F)) (chunks : list text)
      (api_key postgres_url : option text) :
  Pipeline.is_set api_key = true -> Pipeline.is_set postgres_url = true ->
  Pipeline.database
    (Pipeline.save_chunks embed true db chunks base_name true api_key
                          split_strategy postgres_url)
  = db ++ rows_of embed base_name split_strategy 1 chunks.
Proof.
  intros Hk Hu. unfold Pipeline.save_chunks. rewrite Hk. simpl andb.
  pose proof (@each_chunk_rows (length chunks) chunks [] 1%nat eq_refl) as Hrows.
  simpl app in Hrows.
  destruct (Pipeline.each_chunk embed true (length chunks) 1 chunks) as [files entries].
  simpl in Hrows. destruct entries as [|e entries]; simpl truthy; cbv iota.
  - simpl in Hrows. rewrite <- Hrows. simpl. now rewrite app_nil_r.
  - rewrite Hu. simpl. unfold Pipeline.save_to_database. rewrite Hu. simpl.
    now rewrite <- Hrows.
Qed.

Lemma save_chunks_files (up : bool) (db : list (Pipeline.row F)) (chunks : list text)
      (enable_embedding : bool) (api_key postgres_url : option text) :
  map fst
      (Pipeline.saved_files
         (Pipeline.save_chunks embed up db chunks base_name enable_embedding api_key
                               split_strategy postgres_url))
  = map Pipeline.chunk_filename (seq 1 (length chunks)).
Proof.
  unfold Pipeline.save_chunks.
  pose proof (each_chunk_files (enable_embedding && Pipeline.is_set api_key)
                (length chunks) chunks 1) as Hf.
  destruct (Pipeline.each_chunk embed (enable_embedding && Pipeline.is_set api_key)
              (length chunks) 1 chunks) as [files entries].
  simpl in Hf.
  destruct (truthy entries); [destruct (Pipeline.is_set postgres_url)|]; exact Hf.
Qed.

Lemma each_chunk_index (n : nat) (chunks : list text) :
  forall i : nat,
    snd (Pipeline.each_chunk embed true n i chunks) = entries_of embed i chunks.
Proof.
  induction chunks as [|chunk rest IH]; intros i; [reflexivity|].
  simpl. specialize (IH (S i)).
  destruct (Pipeline.each_chunk embed true n (S i) rest) as [files entries].
  simpl in IH. unfold Pipeline.generate_embedding.
  destruct (embed i chunk) as [[|x v]|]; simpl; now rewrite IH.
Qed.

(** The embeddings index that [save_chunks] writes when embeddings are
    configured: none when no chunk has a vector. *)
Lemma save_chunks_index (up : bool) (db : list (Pipeline.row F)) (chunks : list text)
      (api_key postgres_url : option text) :
  Pipeline.is_set api_key = true ->
  Pipeline.embeddings_json
    (Pipeline.save_chunks embed up db chunks base_name true api_key
                          split_strategy postgres_url)
  = match entries_of embed 1 chunks with
    | [] => None
    | e :: es => Some (e :: es)
    end.
Proof.
  intros Hk. unfold Pipeline.save_chunks. rewrite Hk. simpl andb.
  pose proof (each_chunk_index (length chunks) chunks 1) as Hidx.
  destruct (Pipeline.each_chunk embed true (length chunks) 1 chunks) as [files entries].
  simpl in Hidx. subst entries.
  destruct (entries_of embed 1 chunks); simpl truthy; cbv iota; [reflexivity|].
  destruct (Pipeline.is_set postgres_url); reflexivity.
Qed.

End PipelineFacts.

(** C3, as the code has it. With embeddings and a reachable store
    configured, a failed embedding call does not stop the run: the file of
    every chunk is written; the embeddings index has one entry, and the
    store receives one row, with its vector, for every chunk whose
    embedding call gave a vector, in order; a chunk whose call failed has no
    entry in the index and no row in the store. For three chunks with a
    failure on the second, that is three files, and two entries and two
    rows, for chunks 1 and 3. *)
Theorem embedding_failure_skips_the_record (F : Type) (embed : Pipeline.provider F)
        (db : list (Pipeline.row F)) (chunks : list text)
        (base_name split_strategy : text) (api_key postgres_url : option text) :
  Pipeline.is_set api_key = true -> Pipeline.is_set postgres_url = true ->
  let run := Pipeline.save_chunks embed true db chunks base_name true api_key
                                  split_strategy postgres_url in
  map fst (Pipeline.saved_files run) = map Pipeline.chunk_filename (seq 1 (length chunks))
  /\ Pipeline.embeddings_json run
     = match entries_of embed 1 chunks with
       | [] => None
       | e :: es => Some (e :: es)
       end
  /\ Pipeline.database run = db ++ rows_of embed base_name split_strategy 1 chunks
  /\ Forall (fun r => Pipeline.has_vector (Pipeline.embedding_col r) = true)
            (rows_of embed base_name split_strategy 1 chunks)
  /\ (forall (c1 c2 c3 : text) (v1 v3 : Pipeline.vector F),
         chunks = [c1; c2; c3] ->
         embed 1%nat c1 = Some v1 -> v1 <> [] ->
         embed 2%nat c2 = None ->
         embed 3%nat c3 = Some v3 -> v3 <> [] ->
         length (Pipeline.saved_files run) = 3%nat
         /\ Pipeline.embeddings_json run
            = Some [Pipeline.Entry 1 (Pipeline.chunk_filename 1)
                                   (Pipeline.make_preview c1) v1 (length v1);
                    Pipeline.Entry 3 (Pipeline.chunk_filename 3)
                                   (Pipeline.make_preview c3) v3 (length v3)]
         /\ Pipeline.database run
            = db ++ [Pipeline.Row c1 (Some v1) base_name split_strategy;
                     Pipeline.Row c3 (Some v3) base_name split_strategy]).
Proof.
  intros Hk Hu run.
  assert (Hfiles : map fst (Pipeline.saved_files run)
                   = map Pipeline.chunk_filename (seq 1 (length chunks)))
    by apply save_chunks_files.
  assert (Hidx : Pipeline.embeddings_json run
                 = match entries_of embed 1 chunks with
                   | [] => None
                   | e :: es => Some (e :: es)
                   end)
    by (apply save_chunks_index; trivial).
  assert (Hdb : Pipeline.database run
                = db ++ rows_of embed base_name split_strategy 1 chunks)
    by (apply save_chunks_database; trivial).
  split; [exact Hfiles|]. split; [exact Hidx|]. split; [exact Hdb|].
  split; [apply rows_of_have_vectors|].
  intros c1 c2 c3 v1 v3 E E1 Hv1 E2 E3 Hv3. split; [|split].
  - apply (f_equal (@length text)) in Hfiles.
    rewrite !length_map, length_seq in Hfiles. subst chunks. exact Hfiles.
  - rewrite Hidx. subst chunks. simpl.
    destruct v1 as [|x1 v1]; [congruence|]. destruct v3 as [|x3 v3]; [congruence|].
    rewrite E1, E2, E3. reflexivity.
  - rewrite Hdb. subst chunks. simpl.
    destruct v1 as [|x1 v1]; [congruence|]. destruct v3 as [|x3 v3]; [congruence|].
    rewrite E1, E2, E3. reflexivity.
Qed.

Lemma embedding_failure_skips_the_record_witness :
  let run := Pipeline.save_chunks fails_on_second true [] [str "a"; str "b"; str "c"]
                                  (str "doc") true (Some (str "key")) (str "fixed")
                                  (Some (str "postgres://db")) in
  Pipeline.is_set (Some (str "key")) = true
  /\ Pipeline.is_set (Some (str "postgres://db")) = true
  /\ Pipeline.embeddings_json run
     = match entries_of fails_on_second 1 [str "a"; str "b"; str "c"] with
       | [] => None
       | e :: es => Some (e :: es)
       end
  /\ Pipeline.database run
     = [] ++ rows_of fails_on_second (str "doc") (str "fixed") 1 [str "a"; str "b"; str "c"].
Proof.
  split; [reflexivity|]. split; [reflexivity|].
  destruct (@embedding_failure_skips_the_record Z fails_on_second []
              [str "a"; str "b"; str "c"] (str "doc") (str "fixed")
              (Some (str "key")) (Some (str "postgres://db")) eq_refl eq_refl)
    as (_ & Hidx & Hdb & _).
  split; [exact Hidx|exact Hdb].
Defined.

(** C3 as stated fails: three chunks, the embedding of the second fails;
    three files are written, but the embeddings index has two entries and
    the store holds two rows, for the first and the third chunk, and none,
    with or without a vector, for the second. *)
Lemma embedding_failure_leaves_two_rows :
  let run := Pipeline.save_chunks fails_on_second true [] [str "a"; str "b"; str "c"]
                                  (str "doc") true (Some (str "key")) (str "fixed")
                                  (Some (str "postgres://db")) in
  length (Pipeline.saved_files run) = 3%nat
  /\ option_map (map (@Pipeline.chunk_id Z)) (Pipeline.embeddings_json run)
     = Some [1; 3]%nat
  /\ Pipeline.database run
     = [Pipeline.Row (str "a") (Some [1%Z]) (str "doc") (str "fixed");
        Pipeline.Row (str "c") (Some [3%Z]) (str "doc") (str "fixed")]
  /\ length (Pipeline.database run) <> 3%nat
  /\ ~ In (str "b") (map (@Pipeline.chunk_text_col Z) (Pipeline.database run)).
Proof.
  repeat split; try discriminate.
  vm_compute. intros [H|[H|[]]]; discriminate H.
Qed.

(** ** Sanitising before chunking *)

(** C9 fails on the code. A text file holding [a</div>b] is extracted with
    the wrapper around it; the sanitising line then removes the closing tag
    of the wrapper and the one of the body alike, and the chunker is handed
    [ab]. A body without the tags comes back as it was. *)
Theorem remove_rtl_wrapper_removes_body_tags :
  format_text_to_markdown (str "a</div>b")
  = rtl_open ++ nl ++ nl ++ str "a</div>b" ++ nl ++ nl ++ rtl_close
  /\ remove_rtl_wrapper (format_text_to_markdown (str "a</div>b")) = str "ab"
  /\ remove_rtl_wrapper (format_text_to_markdown (str "a</div>b")) <> str "a</div>b"
  /\ remove_rtl_wrapper (format_text_to_markdown (str "ab")) = str "ab".
Proof. repeat split. discriminate. Qed.

(** The same for the opening tag, and for every occurrence: [replace] has no
    notion of the enclosing pair. *)
Example remove_rtl_wrapper_removes_every_occurrence :
  remove_rtl_wrapper
    (format_text_to_markdown (str "x" ++ rtl_open ++ str "y" ++ rtl_close ++ str "z</div>"))
  = str "xyz".
Proof. reflexivity. Qed.

(** ** The remaining tests of the repository and examples of the specification *)

Example paragraphs_of_spec :
  chunk_text 0 (str "A." ++ nl ++ nl ++ str "B." ++ nl ++ nl ++ str "C.")
             (str "paragraph") 1000 200
  = Some (Ok [str "A."; str "B."; str "C."]).
Proof. reflexivity. Qed.

Example sentences_of_test_app :
  chunk_text 0 (str "Sentence one. Sentence two. Sentence three.") (str "sentence") 1000 200
  = Some (Ok [str "Sentence one."; str "Sentence two."; str "Sentence three."]).
Proof. reflexivity. Qed.

Example invalid_params_of_test_app :
  chunk_text_fixed_size 5 (str "test") 100 200 = Some (Raise InvalidChunkConfig).
Proof. reflexivity. Qed.

Example invalid_strategy_of_test_app :
  chunk_text 5 (str "test") (str "invalid") 1000 200
  = Some (Raise (UnsupportedStrategy (str "invalid"))).
Proof. reflexivity. Qed.

(** * Further properties of the code *)

(** ** Fixed-size chunker: shape of the chunks *)

Section WindowShape.

Variable A : Type.
Variables s o : nat.
Hypothesis Hos : (o < s)%nat.

Lemma windows_nth (fuel : nat) :
  forall (rest : list A) (i : nat) (c : list A),
    (length rest < fuel)%nat ->
    nth_error (windows fuel s (s - o) rest) i = Some c ->
    c = firstn s (skipn (i * (s - o)) rest) /\ (i * (s - o) < length rest)%nat.
Proof.
  induction fuel as [|f IH]; intros rest i c Hfuel Hc; [lia|].
  destruct (Nat.le_gt_cases (length rest) s) as [Hle|Hgt].
  - destruct rest as [|x rest]; [rewrite windows_nil in Hc; destruct i; discriminate|].
    rewrite windows_short in Hc by (trivial; simpl length in *; lia).
    destruct i as [|i]; [|destruct i; discriminate].
    injection Hc as <-. simpl. split; [|lia].
    now rewrite firstn_all2 by (simpl length in *; lia).
  - destruct (windows_long Hos rest Hgt Hfuel) as (f' & Hf & Hsk & Hw).
    injection Hf as <-. rewrite Hw in Hc.
    destruct i as [|i]; simpl in Hc.
    + injection Hc as <-. simpl. split; [reflexivity|lia].
    + destruct (IH _ _ _ Hsk Hc) as [-> Hi]. rewrite skipn_skipn.
      rewrite length_skipn in Hi. split; [f_equal; f_equal|]; simpl; lia.
Qed.

Lemma windows_full (fuel : nat) :
  forall (rest : list A) (i : nat) (c : list A),
    (length rest < fuel)%nat ->
    nth_error (windows fuel s (s - o) rest) i = Some c ->
    (S i < length (windows fuel s (s - o) rest))%nat ->
    length c = s.
Proof.
  induction fuel as [|f IH]; intros rest i c Hfuel Hc Hi; [lia|].
  destruct (Nat.le_gt_cases (length rest) s) as [Hle|Hgt].
  - destruct rest as [|x rest]; [rewrite windows_nil in Hi; simpl in Hi; lia|].
    rewrite windows_short in Hi by (trivial; simpl length in *; lia).
    simpl in Hi. lia.
  - destruct (windows_long Hos rest Hgt Hfuel) as (f' & Hf & Hsk & Hw).
    injection Hf as <-. rewrite Hw in Hc, Hi.
    destruct i as [|i]; simpl in Hc, Hi.
    + injection Hc as <-. rewrite length_firstn. lia.
    + eapply IH; eauto. lia.
Qed.

Lemma windows_nonempty (fuel : nat) :
  forall rest : list A, Forall (fun c => c <> []) (windows fuel s (s - o) rest).
Proof.
  induction fuel as [|f IH]; intros rest; [constructor|].
  destruct rest as [|x rest]; [constructor|]. cbn [windows].
  constructor.
  - destruct s; [lia|]. discriminate.
  - destruct (length (x :: rest) <=? s)%nat; [constructor|apply IH].
Qed.

End WindowShape.

(** Put on the chunker: a valid configuration here is [S > O >= 0], which
    is what the check of the code lets through of the non-negative ones. *)
Theorem fixed_size_chunk_shape (fuel : nat) (t : text) (S_ O_ : Z) :
  (S_ > O_)%Z -> (O_ >= 0)%Z -> (length t < fuel)%nat ->
  exists cs,
    chunk_text_fixed_size fuel t S_ O_ = Some (Ok cs)
    /\ Forall (fun c => c <> []) cs
    /\ (forall (i : nat) (c : text),
           nth_error cs i = Some c -> (S i < length cs)%nat -> len c = S_)
    /\ (forall (i : nat) (c : text),
           nth_error cs i = Some c ->
           c = slice t (Z.of_nat i * (S_ - O_)) (Z.of_nat i * (S_ - O_) + S_)
           /\ (Z.of_nat i * (S_ - O_) < len t)%Z).
Proof.
  intros HS HO Hfuel. eexists. split; [apply chunk_text_fixed_size_windows; lia|].
  replace (Z.to_nat (S_ - O_)) with (Z.to_nat S_ - Z.to_nat O_)%nat by lia.
  assert (Hos : (Z.to_nat O_ < Z.to_nat S_)%nat) by lia.
  assert (He : (length t < enough t)%nat) by (unfold enough; lia).
  split; [apply windows_nonempty; exact Hos|]. split.
  - intros i c Hc Hi. unfold len.
    rewrite (@windows_full char _ _ Hos _ _ _ _ He Hc Hi). lia.
  - intros i c Hc. destruct (@windows_nth char _ _ Hos _ _ _ _ He Hc) as [-> Hi].
    assert (Hidx : (Z.of_nat i * (S_ - O_))%Z
                   = Z.of_nat (i * (Z.to_nat S_ - Z.to_nat O_))).
    { rewrite Nat2Z.inj_mul, Nat2Z.inj_sub by lia. now rewrite !Z2Nat.id by lia. }
    rewrite Hidx. split; [|unfold len; lia].
    rewrite <- slice_window. f_equal. rewrite Z2Nat.id by lia. reflexivity.
Qed.

Lemma fixed_size_chunk_shape_witness :
  (4 > 0)%Z /\ (0 >= 0)%Z /\ (length (str "abcdefghij") < 11)%nat
  /\ exists cs,
      chunk_text_fixed_size 11 (str "abcdefghij") 4 0 = Some (Ok cs)
      /\ Forall (fun c => c <> []) cs.
Proof.
  split; [lia|]. split; [lia|]. split; [simpl; lia|].
  destruct (@fixed_size_chunk_shape 11 (str "abcdefghij") 4 0)
    as (cs & Hcs & Hne & _); [lia|lia|simpl; lia|].
  exists cs. split; assumption.
Defined.

(** Without overlap the chunks are a partition of the text. *)
Theorem fixed_size_zero_overlap_partition (fuel : nat) (t : text) (S_ : Z) :
  (S_ > 0)%Z -> (length t < fuel)%nat ->
  exists cs,
    chunk_text_fixed_size fuel t S_ 0 = Some (Ok cs) /\ concat cs = t.
Proof.
  intros HS Hfuel. eexists. split; [apply chunk_text_fixed_size_windows; lia|].
  pose proof (@windows_reconstruct char (Z.to_nat S_) 0 ltac:(lia)
                (enough t) t ltac:(unfold enough; lia)) as Hr.
  replace (Z.to_nat S_ - 0)%nat with (Z.to_nat (S_ - 0)) in Hr by lia.
  destruct (windows (enough t) (Z.to_nat S_) (Z.to_nat (S_ - 0)) t) as [|c cs];
    trivial.
  simpl. etransitivity; [|exact Hr]. f_equal. f_equal.
  rewrite <- map_id at 1. apply map_ext. reflexivity.
Qed.

Lemma fixed_size_zero_overlap_partition_witness :
  (4 > 0)%Z /\ (length (str "abcdefghij") < 11)%nat
  /\ exists cs,
      chunk_text_fixed_size 11 (str "abcdefghij") 4 0 = Some (Ok cs)
      /\ concat cs = str "abcdefghij".
Proof.
  split; [lia|]. split; [simpl; lia|].
  apply (@fixed_size_zero_overlap_partition 11 (str "abcdefghij") 4); [lia|simpl; lia].
Defined.

(** Whatever passes the check, negative values too, the loop appends at most
    one chunk for every character of the text. *)
Lemma while_count (t : text) (S_ O_ : Z) :
  (O_ < S_)%Z ->
  forall (fuel : nat) (start : Z) (acc : list text),
    (Z.to_nat (len t - start) < fuel)%nat ->
    exists r,
      Fixed.while fuel t S_ O_ start acc = Some r
      /\ (length r <= length acc + Z.to_nat (len t - start))%nat.
Proof.
  intros Hso. induction fuel as [|f IH]; intros start acc Hfuel; [lia|].
  simpl. destruct (Z.ltb_spec start (len t)) as [Hlt|Hge].
  - unfold Fixed.body. destruct (start + S_ >=? len t)%Z.
    + eexists. split; [reflexivity|]. rewrite length_app. simpl. lia.
    + destruct (IH (start + S_ - O_)%Z (acc ++ [slice t start (start + S_)]))
        as (r & Hr & Hlen); [lia|].
      exists r. split; trivial. rewrite length_app in Hlen. simpl in Hlen. lia.
  - eexists. split; [reflexivity|]. lia.
Qed.

Theorem fixed_size_count_at_most_length (fuel : nat) (t : text) (chunk_size overlap : Z) :
  (chunk_size > overlap)%Z -> (length t < fuel)%nat ->
  exists chunks,
    chunk_text_fixed_size fuel t chunk_size overlap = Some (Ok chunks)
    /\ (length chunks <= length t)%nat.
Proof.
  intros Hgt Hfuel. unfold chunk_text_fixed_size.
  destruct (Z.leb_spec chunk_size overlap); [lia|].
  destruct (@while_count t chunk_size overlap ltac:(lia) fuel 0%Z [])
    as (r & -> & Hlen); [unfold len; lia|].
  exists r. split; trivial. unfold len in Hlen. simpl in Hlen. lia.
Qed.

Lemma fixed_size_count_at_most_length_witness :
  (0 > -2)%Z /\ (length (str "abcde") < 6)%nat
  /\ exists chunks,
      chunk_text_fixed_size 6 (str "abcde") 0 (-2) = Some (Ok chunks)
      /\ (length chunks <= length (str "abcde"))%nat.
Proof.
  split; [lia|]. split; [simpl; lia|].
  apply (@fixed_size_count_at_most_length 6 (str "abcde") 0 (-2)); [lia|simpl; lia].
Defined.

(** ** Trimming *)

Lemma lstrip_prefix (s : text) :
  exists a, s = a ++ lstrip s /\ Forall (fun c => is_space c = true) a.
Proof.
  induction s as [|c s (a & E & Ha)]; [exists []; auto|].
  simpl. destruct (is_space c) eqn:Hc.
  - exists (c :: a). split; [simpl; now f_equal|now constructor].
  - exists []. auto.
Qed.

Lemma lstrip_head (s : text) (c : char) (r : text) :
  lstrip s = c :: r -> is_space c = false.
Proof.
  induction s as [|x s IH]; simpl; [discriminate|].
  destruct (is_space x) eqn:Hx; [exact IH|].
  intros E. injection E as <- _. exact Hx.
Qed.

Lemma lstrip_fixed (c : char) (r : text) : is_space c = false -> lstrip (c :: r) = c :: r.
Proof. intros Hc. simpl. now rewrite Hc. Qed.

Lemma lstrip_idem (s : text) : lstrip (lstrip s) = lstrip s.
Proof.
  destruct (lstrip s) as [|c r] eqn:E; [reflexivity|].
  apply lstrip_fixed. eapply lstrip_head; eauto.
Qed.

Lemma lstrip_rstrip (s : text) : lstrip s = s -> lstrip (rstrip s) = rstrip s.
Proof.
  intros Hs. destruct s as [|c r]; [reflexivity|].
  assert (Hc : is_space c = false) by (eapply lstrip_head; eauto).
  unfold rstrip. simpl rev. rewrite lstrip_snoc by trivial.
  rewrite rev_app_distr. simpl. now rewrite Hc.
Qed.

Lemma rstrip_rev_fixed (s : text) : lstrip (rev (rstrip s)) = rev (rstrip s).
Proof. unfold rstrip. rewrite rev_involutive. apply lstrip_idem. Qed.

(** A text without leading or trailing whitespace. *)
Lemma strip_trimmed (s : text) :
  lstrip (strip s) = strip s /\ lstrip (rev (strip s)) = rev (strip s).
Proof.
  unfold strip. split; [apply lstrip_rstrip, lstrip_idem|apply rstrip_rev_fixed].
Qed.

Lemma strip_of_trimmed (s : text) :
  lstrip s = s -> lstrip (rev s) = rev s -> strip s = s.
Proof.
  intros H1 H2. unfold strip, rstrip. rewrite H1, H2. apply rev_involutive.
Qed.

Lemma strip_idem (s : text) : strip (strip s) = strip s.
Proof. destruct (strip_trimmed s). now apply strip_of_trimmed. Qed.

Lemma strip_infix (s : text) :
  exists a b,
    s = a ++ strip s ++ b
    /\ Forall (fun c => is_space c = true) a /\ Forall (fun c => is_space c = true) b.
Proof.
  destruct (lstrip_prefix s) as (a & Ea & Ha).
  destruct (lstrip_prefix (rev (lstrip s))) as (b & Eb & Hb).
  exists a, (rev b). repeat split; trivial; [|now apply Forall_rev].
  unfold strip, rstrip. rewrite Ea at 1. f_equal.
  rewrite <- rev_app_distr, <- Eb. now rewrite rev_involutive.
Qed.

Lemma non_space_spaces (a : text) :
  Forall (fun c => is_space c = true) a -> non_space a = [].
Proof.
  induction 1 as [|c a Hc _ IH]; [reflexivity|].
  unfold non_space in *. simpl. now rewrite Hc.
Qed.

Lemma non_space_app (a b : text) : non_space (a ++ b) = non_space a ++ non_space b.
Proof. apply filter_app. Qed.

Lemma non_space_strip (s : text) : non_space (strip s) = non_space s.
Proof.
  destruct (strip_infix s) as (a & b & E & Ha & Hb).
  rewrite E at 2. rewrite !non_space_app.
  rewrite (non_space_spaces Ha), (non_space_spaces Hb). now rewrite app_nil_r.
Qed.

Lemma has_boundary_infix (a s b : text) : has_boundary s -> has_boundary (a ++ s ++ b).
Proof.
  intros (l1 & d & c & l2 & -> & Hd & Hc).
  exists (a ++ l1), d, c, (l2 ++ b). repeat split; trivial.
  rewrite <- !app_assoc. reflexivity.
Qed.

(** ** Sentence and paragraph chunks *)

Lemma strip_nonempty_spec (pieces : list text) (c : text) :
  In c (strip_nonempty pieces) <-> exists p, In p pieces /\ c = strip p /\ c <> [].
Proof.
  unfold strip_nonempty. rewrite in_map_iff. split.
  - intros (p & <- & Hp). apply filter_In in Hp as [Hp Hne].
    exists p. repeat split; trivial. now destruct (strip p).
  - intros (p & Hp & -> & Hne). exists p. split; trivial.
    apply filter_In. split; trivial. now destruct (strip p).
Qed.

Lemma strip_nonempty_trimmed (pieces : list text) :
  Forall (fun c => c <> [] /\ strip c = c) (strip_nonempty pieces).
Proof.
  apply Forall_forall. intros c Hc.
  apply strip_nonempty_spec in Hc as (p & _ & -> & Hne).
  split; [trivial|apply strip_idem].
Qed.

Lemma strip_nonempty_non_space (pieces : list text) :
  non_space (concat (strip_nonempty pieces)) = non_space (concat pieces).
Proof.
  unfold strip_nonempty. induction pieces as [|p ps IH]; [reflexivity|].
  simpl. rewrite (non_space_app p). rewrite <- (non_space_strip p).
  destruct (strip p) eqn:E; simpl; [exact IH|].
  rewrite non_space_app, IH, E. reflexivity.
Qed.

(** Every chunk of the sentence and of the paragraph strategy is non-empty
    and has no whitespace at either end. *)
Lemma trimmed_chunks (t : text) :
  Forall (fun c => c <> [] /\ strip c = c
                   /\ (exists x r, c = x :: r /\ is_space x = false)
                   /\ (exists r y, c = r ++ [y] /\ is_space y = false))
         (chunk_text_by_sentences t)
  /\ Forall (fun c => c <> [] /\ strip c = c
                      /\ (exists x r, c = x :: r /\ is_space x = false)
                      /\ (exists r y, c = r ++ [y] /\ is_space y = false))
            (chunk_text_by_paragraphs t).
Proof.
  assert (H : forall pieces,
             Forall (fun c => c <> [] /\ strip c = c
                              /\ (exists x r, c = x :: r /\ is_space x = false)
                              /\ (exists r y, c = r ++ [y] /\ is_space y = false))
                    (strip_nonempty pieces)).
  { intros pieces. eapply Forall_impl; [|apply strip_nonempty_trimmed].
    intros c [Hne Hc]. repeat split; trivial.
    - destruct c as [|x r]; [congruence|]. exists x, r. split; trivial.
      apply (@lstrip_head (x :: r) x r).
      pose proof (proj1 (strip_trimmed (x :: r))) as H1. now rewrite Hc in H1.
    - destruct (exists_last Hne) as (r & y & ->). exists r, y. split; trivial.
      apply (@lstrip_head (rev (r ++ [y])) y (rev r)).
      pose proof (proj2 (strip_trimmed (r ++ [y]))) as H2. rewrite Hc in H2.
      rewrite H2. now rewrite rev_app_distr. }
  split; apply H.
Qed.

(** Every chunk of the sentence and of the paragraph strategy is non-empty
    and has no whitespace at either end. *)
Theorem chunks_are_trimmed (t : text) :
  Forall (fun c => c <> [] /\ strip c = c
                   /\ (exists x r, c = x :: r /\ is_space x = false)
                   /\ (exists r y, c = r ++ [y] /\ is_space y = false))
         (chunk_text_by_sentences t)
  /\ Forall (fun c => c <> [] /\ strip c = c
                      /\ (exists x r, c = x :: r /\ is_space x = false)
                      /\ (exists r y, c = r ++ [y] /\ is_space y = false))
            (chunk_text_by_paragraphs t).
Proof. intros; eapply trimmed_chunks; eauto. Qed.

(** ** [split] and [join] *)

Lemma starts_with_app (pre t : text) :
  starts_with pre t = true -> t = pre ++ skipn (length pre) t.
Proof.
  revert t. induction pre as [|p pre IH]; intros t H; [reflexivity|].
  destruct t as [|c t]; [discriminate|]. simpl in H.
  apply andb_true_iff in H as [Hc Ht]. apply N.eqb_eq in Hc. subst c.
  simpl. f_equal. now apply IH.
Qed.

Lemma split_aux_not_nil (sep : text) (t : text) :
  forall (skip : nat) (cur : text), split_aux sep skip cur t <> [].
Proof.
  induction t as [|c t IH]; intros skip cur; simpl; [discriminate|].
  destruct skip; [|apply IH].
  destruct (starts_with sep (c :: t)); [discriminate|apply IH].
Qed.

Lemma join_cons (sep p : text) (rest : list text) :
  rest <> [] -> join sep (p :: rest) = p ++ sep ++ join sep rest.
Proof. destruct rest; [congruence|reflexivity]. Qed.

Lemma split_aux_join (sep : text) :
  sep <> [] ->
  forall (t : text) (skip : nat) (cur : text),
    (skip <= length t)%nat ->
    join sep (split_aux sep skip cur t) = rev cur ++ skipn skip t.
Proof.
  intros Hsep. induction t as [|c t IH]; intros skip cur Hskip.
  - simpl in Hskip. replace skip with 0%nat by lia. simpl. now rewrite app_nil_r.
  - simpl split_aux. destruct skip as [|k].
    + destruct (starts_with sep (c :: t)) eqn:Hst.
      * apply starts_with_app in Hst.
        destruct sep as [|s0 sep']; [congruence|].
        simpl in Hst. injection Hst as <- Ht.
        rewrite join_cons by apply split_aux_not_nil.
        assert (Hl : (length sep' <= length t)%nat).
        { pose proof (f_equal (@length char) Ht) as E. rewrite length_app in E. lia. }
        replace (length (c :: sep') - 1)%nat with (length sep') by (simpl; lia).
        rewrite IH by exact Hl.
        simpl. f_equal. f_equal. exact (eq_sym Ht).
      * rewrite IH by lia. simpl. now rewrite <- app_assoc.
    + rewrite IH by (simpl in Hskip; lia). reflexivity.
Qed.

(** Joining the pieces of a split with the separator gives the text back. *)
Lemma join_split (t sep : text) : sep <> [] -> join sep (split t sep) = t.
Proof.
  intros Hsep. unfold split. rewrite split_aux_join by (trivial; lia). reflexivity.
Qed.

Lemma non_space_join (sep : text) (parts : list text) :
  Forall (fun c => is_space c = true) sep ->
  non_space (join sep parts) = non_space (concat parts).
Proof.
  intros Hsep. induction parts as [|p rest IH]; [reflexivity|].
  destruct rest as [|q rest].
  - simpl. now rewrite app_nil_r.
  - rewrite join_cons by discriminate.
    change (concat (p :: q :: rest)) with (p ++ concat (q :: rest)).
    rewrite (non_space_app p (sep ++ _)), (non_space_app sep), (non_space_app p).
    rewrite (non_space_spaces Hsep), IH. reflexivity.
Qed.

(** ** What the sentence and paragraph chunkers keep *)

Lemma well_split_facts (segs : list (text * text)) :
  well_split segs ->
  Forall (fun ps => ~ has_boundary (fst ps)
                    /\ Forall (fun c => is_space c = true) (snd ps)) segs.
Proof.
  induction segs as [|[p sep] rest IH]; [constructor|].
  intros (Hnb & Hsep & Hrest). constructor; [|now apply IH].
  split; trivial. simpl. destruct rest as [|[p' sep'] rest].
  - subst sep. constructor.
  - tauto.
Qed.

Lemma non_space_segments (segs : list (text * text)) :
  Forall (fun ps => Forall (fun c => is_space c = true) (snd ps)) segs ->
  non_space (concat (map (fun ps => fst ps ++ snd ps) segs))
  = non_space (concat (map fst segs)).
Proof.
  induction 1 as [|[p sep] rest Hsep _ IH]; [reflexivity|].
  simpl in *. rewrite !non_space_app, (non_space_spaces Hsep), IH.
  now rewrite app_nil_r.
Qed.

Lemma sentence_segments (t : text) :
  well_split (Sentence.scan false None [] [] t)
  /\ concat (map (fun ps => fst ps ++ snd ps) (Sentence.scan false None [] [] t)) = t.
Proof.
  split.
  - apply scan_well_split. split; [apply no_boundary_short; simpl; lia|now split].
  - apply (@scan_concat t false None [] []). trivial.
Qed.

(** The sentence chunks, read one after the other, have the characters of
    the text that are not whitespace, all of them and in their order:
    chunking removes whitespace and nothing else. *)
Lemma sentence_non_space (t : text) :
  non_space (concat (chunk_text_by_sentences t)) = non_space t.
Proof.
  unfold chunk_text_by_sentences. rewrite strip_nonempty_non_space.
  destruct (sentence_segments t) as [Hw Hc]. unfold Sentence.re_split.
  rewrite <- Hc at 2. symmetry. apply non_space_segments.
  eapply Forall_impl; [|apply well_split_facts, Hw]. now intros ps [_ H].
Qed.

(** The sentence chunks, read one after the other, have the characters of
    the text that are not whitespace, all of them and in their order:
    chunking removes whitespace and nothing else. *)
Theorem sentence_chunks_keep_text (t : text) :
  non_space (concat (chunk_text_by_sentences t)) = non_space t.
Proof. intros; eapply sentence_non_space; eauto. Qed.

(** The same for the paragraph chunks. *)
Lemma paragraph_non_space (t : text) :
  non_space (concat (chunk_text_by_paragraphs t)) = non_space t.
Proof.
  unfold chunk_text_by_paragraphs. rewrite strip_nonempty_non_space.
  rewrite <- (@join_split t (nl ++ nl)) at 2 by discriminate.
  symmetry. apply non_space_join. repeat constructor.
Qed.

(** The same for the paragraph chunks. *)
Theorem paragraph_chunks_keep_text (t : text) :
  non_space (concat (chunk_text_by_paragraphs t)) = non_space t.
Proof. intros; eapply paragraph_non_space; eauto. Qed.

(** A text of whitespace only, the empty text included, has no chunk under
    either strategy. *)
Theorem blank_text_has_no_chunk (t : text) :
  Forall (fun c => is_space c = true) t ->
  chunk_text_by_sentences t = [] /\ chunk_text_by_paragraphs t = [].
Proof.
  intros Ht.
  assert (H : forall cs : list text,
             Forall (fun c => c <> [] /\ strip c = c
                              /\ (exists x r, c = x :: r /\ is_space x = false)
                              /\ (exists r y, c = r ++ [y] /\ is_space y = false)) cs ->
             non_space (concat cs) = [] -> cs = []).
  { intros [|c cs] Hcs E; trivial. exfalso.
    apply Forall_inv in Hcs as (_ & _ & (x & r & -> & Hx) & _).
    unfold non_space in E. simpl in E. rewrite Hx in E. discriminate. }
  destruct (trimmed_chunks t) as [Hs Hp].
  split; apply H; trivial.
  - rewrite sentence_non_space. now apply non_space_spaces.
  - rewrite paragraph_non_space. now apply non_space_spaces.
Qed.

Lemma blank_text_has_no_chunk_witness :
  Forall (fun c => is_space c = true) (str "  " ++ nl ++ nl ++ str " ")
  /\ chunk_text_by_sentences (str "  " ++ nl ++ nl ++ str " ") = []
  /\ chunk_text_by_paragraphs (str "  " ++ nl ++ nl ++ str " ") = [].
Proof.
  assert (H : Forall (fun c => is_space c = true) (str "  " ++ nl ++ nl ++ str " "))
    by (repeat constructor).
  split; [exact H|]. exact (blank_text_has_no_chunk H).
Defined.

(** No sentence chunk has a boundary inside: within a chunk a ['.'], ['!'],
    ['?'] or newline is never followed by whitespace. *)
Theorem sentence_chunks_have_no_boundary (t : text) :
  Forall (fun c => ~ has_boundary c) (chunk_text_by_sentences t).
Proof.
  apply Forall_forall. intros c Hc.
  apply strip_nonempty_spec in Hc as (p & Hp & -> & _).
  unfold Sentence.re_split in Hp. apply in_map_iff in Hp as (ps & <- & Hps).
  destruct (sentence_segments t) as [Hw _].
  apply well_split_facts in Hw. rewrite Forall_forall in Hw.
  destruct (Hw ps Hps) as [Hnb _]. intros Hb. apply Hnb.
  destruct (strip_infix (fst ps)) as (a & b & E & _). rewrite E.
  now apply has_boundary_infix.
Qed.

(** A text without a boundary is one chunk, the text trimmed, or none when
    it is blank. *)
Theorem sentence_without_boundary (t : text) :
  ~ has_boundary t ->
  chunk_text_by_sentences t = match strip t with [] => [] | _ :: _ => [strip t] end.
Proof.
  intros Hnb. destruct (sentence_segments t) as [Hw Hc].
  unfold chunk_text_by_sentences, Sentence.re_split.
  destruct (Sentence.scan false None [] [] t) as [|[p sep] [|[p' sep'] rest]].
  - simpl in Hc. subst t. reflexivity.
  - destruct Hw as (_ & -> & _). simpl in Hc. rewrite !app_nil_r in Hc. subst p.
    unfold strip_nonempty. cbn [map fst filter].
    destruct (strip t) eqn:E; cbn [truthy map]; [reflexivity|now rewrite E].
  - exfalso. apply Hnb.
    destruct Hw as (_ & ((d & (p0 & ->) & Hd) & Hne & Hsp & _) & _).
    destruct sep as [|c sep]; [congruence|]. apply Forall_inv in Hsp.
    exists p0, d, c, (sep ++ concat (map (fun ps => fst ps ++ snd ps) ((p', sep') :: rest))).
    repeat split; trivial. rewrite <- Hc. simpl. rewrite <- !app_assoc. reflexivity.
Qed.

Lemma sentence_without_boundary_witness :
  ~ has_boundary (str " a.b ")
  /\ chunk_text_by_sentences (str " a.b ") = [str "a.b"].
Proof.
  assert (H : ~ has_boundary (str " a.b ")).
  { intros (l1 & d & c & l2 & E & Hd & Hc).
    destruct l1 as [|x1 [|x2 [|x3 [|x4 [|x5 l1]]]]];
      injection E; intros; subst; try discriminate.
    destruct l1; discriminate. }
  split; [exact H|]. exact (sentence_without_boundary H).
Defined.

(** ** Hebrew text reversal *)


Lemma join_nil (parts : list text) : join [] parts = concat parts.
Proof.
  induction parts as [|p rest IH]; [reflexivity|].
  destruct rest as [|q rest]; [simpl; now rewrite app_nil_r|].
  rewrite join_cons by discriminate. rewrite IH. reflexivity.
Qed.

Lemma tokens_aux_concat (t : text) :
  forall cur : text, concat (Hebrew.tokens_aux cur t) = rev cur ++ t.
Proof.
  induction t as [|c t IH]; intros cur.
  - destruct cur; simpl; now rewrite ?app_nil_r.
  - destruct cur as [|p cur]; [cbn [Hebrew.tokens_aux]; now rewrite (IH [c])|].
    cbn [Hebrew.tokens_aux].
    destruct (Bool.eqb (is_space p) (is_space c)).
    + rewrite IH. simpl. now rewrite <- !app_assoc.
    + cbn [concat]. rewrite IH. simpl. now rewrite <- !app_assoc.
Qed.

Lemma tokens_concat (t : text) : concat (Hebrew.tokens t) = t.
Proof. apply (tokens_aux_concat t []). Qed.

Lemma tokens_aux_runs (t : text) :
  forall (prev : option bool) (cur : text) (b : bool),
    cur <> [] -> Forall (fun c => is_space c = b) cur -> prev <> Some b ->
    runs prev (Hebrew.tokens_aux cur t).
Proof.
  induction t as [|c t IH]; intros prev cur b Hne Hb Hprev.
  - destruct cur as [|p cur]; [congruence|]. cbn [Hebrew.tokens_aux runs].
    exists b. repeat split; trivial; [now apply rev_not_nil|now apply Forall_rev].
  - destruct cur as [|p cur]; [congruence|]. cbn [Hebrew.tokens_aux].
    pose proof (Forall_inv Hb) as Hp. simpl in Hp.
    destruct (Bool.eqb (is_space p) (is_space c)) eqn:E.
    + apply eqb_prop in E. apply (IH prev _ b); trivial; [discriminate|].
      constructor; [congruence|trivial].
    + apply eqb_false_iff in E. cbn [runs]. exists b.
      repeat split; trivial; [now apply rev_not_nil|now apply Forall_rev|].
      apply (IH _ _ (is_space c)); [discriminate|now repeat constructor|congruence].
Qed.

Lemma tokens_runs (t : text) : runs None (Hebrew.tokens t).
Proof.
  destruct t as [|c t]; [exact I|].
  apply (@tokens_aux_runs t None [c] (is_space c));
    [discriminate|now repeat constructor|discriminate].
Qed.

Lemma tokens_aux_same_kind (tok rest : text) (b : bool) :
  Forall (fun c => is_space c = b) tok ->
  forall cur : text,
    cur <> [] -> Forall (fun c => is_space c = b) cur ->
    Hebrew.tokens_aux cur (tok ++ rest) = Hebrew.tokens_aux (rev tok ++ cur) rest.
Proof.
  induction 1 as [|c tok Hc _ IH]; intros cur Hne Hcur; [reflexivity|].
  destruct cur as [|p cur]; [congruence|].
  pose proof (Forall_inv Hcur) as Hp. simpl in Hp.
  cbn [app Hebrew.tokens_aux]. rewrite Hp, Hc, eqb_reflx.
  rewrite IH; [|discriminate|now constructor].
  simpl. now rewrite <- app_assoc.
Qed.

Lemma tokens_aux_of_runs (toks : list text) :
  forall (cur : text) (b : bool),
    cur <> [] -> Forall (fun c => is_space c = b) cur -> runs (Some b) toks ->
    Hebrew.tokens_aux cur (concat toks) = rev cur :: toks.
Proof.
  induction toks as [|tok rest IH]; intros cur b Hne Hcur Hruns.
  - destruct cur; [congruence|reflexivity].
  - destruct Hruns as (b' & Htok & Hb' & Hdiff & Hrest).
    destruct tok as [|c tok]; [congruence|].
    destruct cur as [|p cur]; [congruence|].
    pose proof (Forall_inv Hcur) as Hp. pose proof (Forall_inv Hb') as Hc.
    simpl in Hp, Hc. apply Forall_inv_tail in Hb'.
    cbn [concat app Hebrew.tokens_aux].
    assert (E : Bool.eqb (is_space p) (is_space c) = false).
    { apply eqb_false_iff. rewrite Hp, Hc. congruence. }
    rewrite E. f_equal.
    rewrite (@tokens_aux_same_kind tok (concat rest) b' Hb' [c]);
      [|discriminate|now repeat constructor].
    rewrite (IH _ b'); trivial.
    + rewrite rev_app_distr, rev_involutive. reflexivity.
    + intros E'. apply app_eq_nil in E' as [_ E']. discriminate.
    + apply Forall_app. split; [now apply Forall_rev|now repeat constructor].
Qed.

(** The runs of a text are found again when they are put together. *)
Lemma tokens_of_runs (toks : list text) :
  runs None toks -> Hebrew.tokens (concat toks) = toks.
Proof.
  destruct toks as [|tok rest]; [reflexivity|].
  intros (b & Htok & Hb & _ & Hrest).
  destruct tok as [|c tok]; [congruence|].
  pose proof (Forall_inv Hb) as Hc. simpl in Hc. apply Forall_inv_tail in Hb.
  unfold Hebrew.tokens. cbn [concat app Hebrew.tokens_aux].
  rewrite (@tokens_aux_same_kind tok (concat rest) b Hb [c]);
    [|discriminate|now repeat constructor].
  rewrite (@tokens_aux_of_runs rest _ b); trivial.
  - rewrite rev_app_distr, rev_involutive. reflexivity.
  - intros E'. apply app_eq_nil in E' as [_ E']. discriminate.
  - apply Forall_app. split; [now apply Forall_rev|now repeat constructor].
Qed.

Lemma truthy_strip (s : text) :
  truthy (strip s) = existsb (fun c => negb (is_space c)) s.
Proof.
  pose proof (non_space_strip s) as E.
  destruct (strip s) as [|x r] eqn:Es.
  - simpl. symmetry. apply not_true_is_false. intros H.
    apply existsb_exists in H as (c & Hin & Hc).
    assert (Hin' : In c (non_space s)) by (apply filter_In; auto).
    rewrite <- E in Hin'. exact Hin'.
  - simpl. symmetry. apply existsb_exists.
    assert (Hx : is_space x = false) by (eapply lstrip_head; rewrite <- Es; apply strip_trimmed).
    assert (Hin : In x (non_space s)).
    { rewrite <- E. unfold non_space. simpl. rewrite Hx. now left. }
    apply filter_In in Hin as [Hin Hns]. eauto.
Qed.

Lemma existsb_rev (A : Type) (f : A -> bool) (l : list A) :
  existsb f (rev l) = existsb f l.
Proof.
  induction l as [|x l IH]; [reflexivity|].
  simpl. rewrite existsb_app, IH. simpl. rewrite orb_false_r. apply orb_comm.
Qed.

Lemma fix_token_cases (tok : text) :
  Hebrew.fix_token tok = tok \/ Hebrew.fix_token tok = rev tok.
Proof.
  unfold Hebrew.fix_token. destruct (truthy (strip tok)); auto.
  destruct (existsb Hebrew.is_hebrew tok); auto.
Qed.

Lemma fix_token_involutive (tok : text) :
  Hebrew.fix_token (Hebrew.fix_token tok) = tok.
Proof.
  unfold Hebrew.fix_token. rewrite !truthy_strip.
  destruct (existsb (fun c => negb (is_space c)) tok) eqn:Hns.
  - destruct (existsb Hebrew.is_hebrew tok) eqn:Hh.
    + rewrite !existsb_rev, Hns, Hh. apply rev_involutive.
    + now rewrite Hns, Hh.
  - now rewrite Hns.
Qed.

Lemma fix_token_runs (toks : list text) :
  forall prev : option bool,
    runs prev toks -> runs prev (map Hebrew.fix_token toks).
Proof.
  induction toks as [|tok rest IH]; intros prev; [trivial|].
  intros (b & Hne & Hb & Hprev & Hrest). cbn [map runs]. exists b.
  destruct (fix_token_cases tok) as [-> | ->]; repeat split; auto.
  - now apply rev_not_nil.
  - now apply Forall_rev.
Qed.

(** [reverse_hebrew_text] undoes itself. *)
Theorem reverse_hebrew_text_involutive (t : text) :
  Hebrew.reverse_hebrew_text (Hebrew.reverse_hebrew_text t) = t.
Proof.
  unfold Hebrew.reverse_hebrew_text. rewrite !join_nil.
  rewrite tokens_of_runs by apply fix_token_runs, tokens_runs.
  rewrite map_map.
  rewrite (map_ext _ (fun x => x)) by apply fix_token_involutive.
  rewrite map_id. apply tokens_concat.
Qed.

(** [reverse_hebrew_text] moves characters inside words only: the result
    has the characters of the text, as many, with whitespace where the text
    has whitespace. *)
Lemma reverse_hebrew_layout (t : text) :
  Permutation (Hebrew.reverse_hebrew_text t) t
  /\ length (Hebrew.reverse_hebrew_text t) = length t
  /\ map is_space (Hebrew.reverse_hebrew_text t) = map is_space t.
Proof.
  unfold Hebrew.reverse_hebrew_text. rewrite join_nil.
  assert (Hperm : forall toks : list text,
             Permutation (concat (map Hebrew.fix_token toks)) (concat toks)).
  { induction toks as [|tok rest IH]; [constructor|]. simpl.
    apply Permutation_app; trivial.
    destruct (fix_token_cases tok) as [-> | ->];
      [reflexivity|symmetry; apply Permutation_rev]. }
  assert (Hmap : forall (toks : list text) (prev : option bool),
             runs prev toks ->
             map is_space (concat (map Hebrew.fix_token toks))
             = map is_space (concat toks)).
  { induction toks as [|tok rest IH]; intros prev; [reflexivity|].
    intros (b & _ & Hb & _ & Hrest). simpl. rewrite !map_app, (IH _ Hrest).
    f_equal. destruct (fix_token_cases tok) as [-> | ->]; trivial.
    rewrite map_rev.
    assert (E : map is_space tok = repeat b (length tok)).
    { clear - Hb. induction Hb as [|c tok Hc _ IH]; [reflexivity|].
      simpl. now rewrite Hc, IH. }
    rewrite E. apply rev_repeat. }
  pose proof (Hperm (Hebrew.tokens t)) as P. rewrite tokens_concat in P.
  split; [exact P|]. split; [apply Permutation_length, P|].
  rewrite (Hmap _ None (tokens_runs t)). now rewrite tokens_concat.
Qed.

(** [reverse_hebrew_text] moves characters inside words only: the result
    has the characters of the text, as many, with whitespace where the text
    has whitespace. *)
Theorem reverse_hebrew_text_keeps_layout (t : text) :
  Permutation (Hebrew.reverse_hebrew_text t) t
  /\ length (Hebrew.reverse_hebrew_text t) = length t
  /\ map is_space (Hebrew.reverse_hebrew_text t) = map is_space t.
Proof. intros; eapply reverse_hebrew_layout; eauto. Qed.

(** A text without a Hebrew letter is returned as it is. *)
Theorem reverse_hebrew_text_without_hebrew (t : text) :
  existsb Hebrew.is_hebrew t = false -> Hebrew.reverse_hebrew_text t = t.
Proof.
  intros Hno. unfold Hebrew.reverse_hebrew_text. rewrite join_nil.
  rewrite <- (tokens_concat t) at 2. f_equal.
  rewrite <- map_id. apply map_ext_in. intros tok Htok.
  unfold Hebrew.fix_token.
  assert (E : existsb Hebrew.is_hebrew tok = false).
  { apply not_true_is_false. intros H.
    apply existsb_exists in H as (c & Hc & Hh).
    assert (Hin : In c t).
    { rewrite <- (tokens_concat t). apply in_concat. eauto. }
    assert (Ht : existsb Hebrew.is_hebrew t = true) by (apply existsb_exists; eauto).
    congruence. }
  rewrite E. now destruct (truthy (strip tok)).
Qed.

Lemma reverse_hebrew_text_without_hebrew_witness :
  existsb Hebrew.is_hebrew (str "Hello, World 42") = false
  /\ Hebrew.reverse_hebrew_text (str "Hello, World 42") = str "Hello, World 42".
Proof.
  split; [reflexivity|].
  apply (@reverse_hebrew_text_without_hebrew (str "Hello, World 42")). reflexivity.
Defined.

(** A single word, a text without whitespace, comes back reversed when it
    has a Hebrew letter and unchanged when it has none. *)
Theorem reverse_hebrew_text_word (t : text) :
  Forall (fun c => is_space c = false) t ->
  Hebrew.reverse_hebrew_text t
  = if existsb Hebrew.is_hebrew t then rev t else t.
Proof.
  intros Hw. destruct t as [|c t]; [reflexivity|].
  unfold Hebrew.reverse_hebrew_text. rewrite join_nil.
  assert (Hruns : runs None [c :: t]).
  { exists false. repeat split; trivial; discriminate. }
  pose proof (tokens_of_runs _ Hruns) as E. cbn [concat] in E.
  rewrite app_nil_r in E. rewrite E. cbn [map concat]. rewrite app_nil_r.
  unfold Hebrew.fix_token. rewrite truthy_strip.
  pose proof (Forall_inv Hw) as Hc. simpl in Hc.
  cbn [existsb]. rewrite Hc. simpl negb. cbn [orb]. reflexivity.
Qed.

Lemma reverse_hebrew_text_word_witness :
  Forall (fun c => is_space c = false) [1513; 1500; 1493; 1501]%N
  /\ Hebrew.reverse_hebrew_text [1513; 1500; 1493; 1501]%N = [1501; 1493; 1500; 1513]%N.
Proof.
  assert (H : Forall (fun c => is_space c = false) [1513; 1500; 1493; 1501]%N)
    by (repeat constructor).
  split; [exact H|]. exact (reverse_hebrew_text_word H).
Defined.

(** ** Sanitising a body without tags *)

Lemma starts_with_refl_app (pre b : text) : starts_with pre (pre ++ b) = true.
Proof.
  induction pre as [|p pre IH]; [reflexivity|].
  simpl. unfold char_eqb. now rewrite N.eqb_refl, IH.
Qed.

Lemma replace_aux_skip (old new x b : text) :
  replace_aux old new (length x) (x ++ b) = replace_aux old new 0 b.
Proof.
  induction x as [|c x IH]; [reflexivity|]. exact IH.
Qed.

Lemma replace_aux_match (old new b : text) :
  old <> [] ->
  replace_aux old new 0 (old ++ b) = new ++ replace_aux old new 0 b.
Proof.
  intros Hne. destruct old as [|o old]; [congruence|].
  change (replace_aux (o :: old) new 0 ((o :: old) ++ b))
    with (if starts_with (o :: old) ((o :: old) ++ b)
          then new ++ replace_aux (o :: old) new (length (o :: old) - 1) (old ++ b)
          else o :: replace_aux (o :: old) new 0 (old ++ b)).
  rewrite starts_with_refl_app. f_equal.
  replace (length (o :: old) - 1)%nat with (length old) by (simpl; lia).
  apply replace_aux_skip.
Qed.

Lemma replace_aux_free (old new a b : text) (o : char) :
  hd_error old = Some o -> Forall (fun c => c <> o) a ->
  replace_aux old new 0 (a ++ b) = a ++ replace_aux old new 0 b.
Proof.
  intros Ho Ha. induction Ha as [|c a Hc _ IH]; [reflexivity|].
  destruct old as [|o' old]; [discriminate|]. injection Ho as ->.
  cbn [app replace_aux starts_with]. unfold char_eqb.
  destruct (N.eqb_spec o c) as [->|_]; [congruence|].
  cbn [andb]. now rewrite IH.
Qed.

(** A text in which the first character of [old] does not occur is not
    changed by [replace]. *)
Lemma replace_free (t old new : text) (o : char) :
  hd_error old = Some o -> Forall (fun c => c <> o) t -> replace t old new = t.
Proof.
  intros Ho Ht. unfold replace. rewrite <- (app_nil_r t) at 1.
  rewrite (@replace_aux_free old new t [] o Ho Ht). simpl. apply app_nil_r.
Qed.

Lemma lstrip_app (p q : text) :
  lstrip (p ++ q) = match lstrip p with [] => lstrip q | _ :: _ => lstrip p ++ q end.
Proof.
  induction p as [|c p IH]; [reflexivity|].
  simpl. destruct (is_space c); [exact IH|reflexivity].
Qed.

Lemma strip_spaces_around (a s b : text) :
  Forall (fun c => is_space c = true) a -> Forall (fun c => is_space c = true) b ->
  strip (a ++ s ++ b) = strip s.
Proof.
  intros Ha Hb.
  assert (Hl : forall (x y : text),
             Forall (fun c => is_space c = true) x -> lstrip (x ++ y) = lstrip y).
  { intros x y Hx. induction Hx as [|c x Hc _ IH]; [reflexivity|].
    simpl. now rewrite Hc. }
  unfold strip. rewrite (Hl a _ Ha). unfold rstrip. f_equal.
  rewrite lstrip_app. destruct (lstrip s) as [|x r] eqn:Es.
  - assert (Hb' : lstrip b = []).
    { rewrite <- (app_nil_r b). rewrite (Hl b [] Hb). reflexivity. }
    now rewrite Hb'.
  - rewrite rev_app_distr. apply Hl. now apply Forall_rev.
Qed.

(** When the body between the wrapper tags has no ['<'], the sanitising line
    of [convert_file] gives exactly the body, trimmed. *)
Lemma unwrap_plain_body (body : text) :
  Forall (fun c => c <> 60%N) body ->
  remove_rtl_wrapper (rtl_open ++ body ++ rtl_close) = strip body.
Proof.
  intros Hb. unfold remove_rtl_wrapper. f_equal.
  unfold replace at 2. rewrite replace_aux_match by discriminate.
  rewrite (@replace_aux_free rtl_open [] body rtl_close 60%N eq_refl Hb).
  change (replace_aux rtl_open [] 0 rtl_close) with rtl_close.
  unfold replace. simpl app at 1.
  rewrite (@replace_aux_free rtl_close [] body rtl_close 60%N eq_refl Hb).
  change (replace_aux rtl_close [] 0 rtl_close) with (@nil char).
  apply app_nil_r.
Qed.

(** When the body between the wrapper tags has no ['<'], the sanitising line
    of [convert_file] gives exactly the body, trimmed. *)
Theorem remove_rtl_wrapper_of_plain_body (body : text) :
  Forall (fun c => c <> 60%N) body ->
  remove_rtl_wrapper (rtl_open ++ body ++ rtl_close) = strip body.
Proof. intros; eapply unwrap_plain_body; eauto. Qed.

Lemma remove_rtl_wrapper_of_plain_body_witness :
  Forall (fun c => c <> 60%N) (nl ++ str "a > b" ++ nl)
  /\ remove_rtl_wrapper (rtl_open ++ (nl ++ str "a > b" ++ nl) ++ rtl_close) = str "a > b".
Proof.
  assert (H : Forall (fun c => c <> 60%N) (nl ++ str "a > b" ++ nl))
    by (repeat constructor; discriminate).
  split; [exact H|]. exact (remove_rtl_wrapper_of_plain_body H).
Defined.

(** ** Extraction of text files *)

Lemma in_join (sep : text) (parts : list text) (p : text) (c : char) :
  In p parts -> In c p -> In c (join sep parts).
Proof.
  induction parts as [|q rest IH]; [contradiction|].
  intros Hp Hc. destruct rest as [|r rest].
  - destruct Hp as [->|[]]. exact Hc.
  - rewrite join_cons by discriminate. apply in_or_app.
    destruct Hp as [->|Hp]; [now left|].
    right. apply in_or_app. right. now apply IH.
Qed.

Lemma in_join_inv (sep : text) (parts : list text) (c : char) :
  In c (join sep parts) -> In c sep \/ exists p, In p parts /\ In c p.
Proof.
  induction parts as [|q rest IH]; [contradiction|].
  destruct rest as [|r rest].
  - intros Hc. right. exists q. split; [now left|exact Hc].
  - rewrite join_cons by discriminate. intros Hc.
    apply in_app_or in Hc as [Hc|Hc]; [right; exists q; split; [now left|trivial]|].
    apply in_app_or in Hc as [Hc|Hc]; [now left|].
    destruct (IH Hc) as [H|(p & Hp & Hcp)]; [now left|].
    right. exists p. split; [now right|trivial].
Qed.

Lemma in_strip (s : text) (c : char) : In c (strip s) -> In c s.
Proof.
  intros Hc. destruct (strip_infix s) as (a & b & E & _). rewrite E.
  apply in_or_app. right. apply in_or_app. now left.
Qed.

Lemma format_line_non_space (line : text) : non_space (format_line line) = non_space line.
Proof.
  unfold format_line. rewrite <- (non_space_strip line).
  destruct (strip line) eqn:E; simpl truthy; cbv iota; [reflexivity|].
  rewrite non_space_app. change (non_space nl) with (@nil char). apply app_nil_r.
Qed.

Lemma in_formatted_lines (t : text) (c : char) :
  In c (formatted_lines t) -> c = 10%N \/ In c t.
Proof.
  unfold formatted_lines. intros Hc.
  apply in_concat in Hc as (l & Hl & Hc). apply in_map_iff in Hl as (line & <- & Hline).
  assert (Hsub : In c line -> In c t).
  { intros H. rewrite <- (@join_split t nl) by discriminate. eapply in_join; eauto. }
  unfold format_line in Hc. destruct (truthy (strip line)).
  - apply in_app_or in Hc as [Hc|[<-|[]]]; [|now left].
    right. apply Hsub. now apply in_strip.
  - destruct Hc as [<-|[]]. now left.
Qed.

(** The Markdown of a text is the wrapper around its lines, each trimmed
    and ended by a newline; the lines have the characters of the text that
    are not whitespace, all of them and in their order. *)
Lemma markdown_of_text (t : text) :
  format_text_to_markdown t
  = rtl_open ++ (nl ++ nl ++ formatted_lines t ++ nl) ++ rtl_close
  /\ non_space (formatted_lines t) = non_space t.
Proof.
  split.
  - unfold format_text_to_markdown, formatted_lines. now rewrite <- !app_assoc.
  - unfold formatted_lines.
    rewrite <- (@join_split t nl) at 2 by discriminate.
    rewrite non_space_join by (repeat constructor).
    induction (split t nl) as [|line lines IH]; [reflexivity|].
    cbn [map concat]. rewrite !non_space_app, format_line_non_space, IH. reflexivity.
Qed.

(** The Markdown of a text is the wrapper around its lines, each trimmed
    and ended by a newline; the lines have the characters of the text that
    are not whitespace, all of them and in their order. *)
Theorem format_text_to_markdown_keeps_text (t : text) :
  format_text_to_markdown t
  = rtl_open ++ (nl ++ nl ++ formatted_lines t ++ nl) ++ rtl_close
  /\ non_space (formatted_lines t) = non_space t.
Proof. intros; eapply markdown_of_text; eauto. Qed.

(** A text file without ['<'] reaches the chunker as its normalised lines,
    trimmed, and so with all its characters that are not whitespace. *)
Lemma unwrap_plain_text (t : text) :
  Forall (fun c => c <> 60%N) t ->
  remove_rtl_wrapper (format_text_to_markdown t) = strip (formatted_lines t)
  /\ non_space (remove_rtl_wrapper (format_text_to_markdown t)) = non_space t.
Proof.
  intros Ht. destruct (markdown_of_text t) as [E Hns].
  assert (H : remove_rtl_wrapper (format_text_to_markdown t) = strip (formatted_lines t)).
  { rewrite E. rewrite unwrap_plain_body.
    - apply (@strip_spaces_around (nl ++ nl) (formatted_lines t) nl);
        repeat constructor.
    - rewrite Forall_forall in *. intros c Hc.
      apply in_app_or in Hc as [[<-|[]]|Hc]; [discriminate|].
      apply in_app_or in Hc as [[<-|[]]|Hc]; [discriminate|].
      apply in_app_or in Hc as [Hc|[<-|[]]]; [|discriminate].
      apply in_formatted_lines in Hc as [->|Hc]; [discriminate|now apply Ht]. }
  split; [exact H|]. now rewrite H, non_space_strip.
Qed.

(** A text file without ['<'] reaches the chunker as its normalised lines,
    trimmed, and so with all its characters that are not whitespace. *)
Theorem plain_text_file_reaches_chunker (t : text) :
  Forall (fun c => c <> 60%N) t ->
  remove_rtl_wrapper (format_text_to_markdown t) = strip (formatted_lines t)
  /\ non_space (remove_rtl_wrapper (format_text_to_markdown t)) = non_space t.
Proof. intros; eapply unwrap_plain_text; eauto. Qed.

Lemma plain_text_file_reaches_chunker_witness :
  Forall (fun c => c <> 60%N) (str " Hi there. " ++ nl ++ nl ++ str "Bye!  ")
  /\ remove_rtl_wrapper (format_text_to_markdown (str " Hi there. " ++ nl ++ nl ++ str "Bye!  "))
     = strip (formatted_lines (str " Hi there. " ++ nl ++ nl ++ str "Bye!  ")).
Proof.
  assert (H : Forall (fun c => c <> 60%N) (str " Hi there. " ++ nl ++ nl ++ str "Bye!  "))
    by (repeat constructor; discriminate).
  split; [exact H|]. exact (proj1 (plain_text_file_reaches_chunker H)).
Defined.

(** ** Extraction of PDF and DOCX files *)

Lemma decimal_digits (n : nat) :
  Forall (fun c => (48 <= c <= 57)%N) (Pipeline.decimal n).
Proof.
  unfold Pipeline.decimal. generalize (Nat.to_uint n). intros d.
  induction d; simpl; constructor; trivial; simpl; lia.
Qed.

Lemma concat_wrapped (a b : text) (parts : list text) :
  join [] ([a] ++ parts ++ [b]) = a ++ concat parts ++ b.
Proof.
  rewrite join_nil. simpl. rewrite concat_app. simpl. now rewrite app_nil_r.
Qed.

Lemma pdf_line_chars (line : text) (c : char) :
  In c (pdf_line line) -> c = 10%N \/ In c line.
Proof.
  unfold pdf_line. destruct (truthy (strip line)).
  - intros Hc. apply in_app_or in Hc as [Hc|[<-|[]]]; [|now left].
    right. eapply Permutation_in; [apply reverse_hebrew_layout|exact Hc].
  - intros [<-|[]]. now left.
Qed.

Lemma pdf_pages_avoid (x : char) (pages : list (option text)) :
  Forall (fun c => c <> x) (str "# " ++ page_word ++ str " " ++ nl ++ str "---") ->
  ~ (48 <= x <= 57)%N ->
  Forall (fun page => match page with
                      | Some p => Forall (fun c => c <> x) p
                      | None => True
                      end) pages ->
  forall page_num : nat,
    Forall (fun c => c <> x) (concat (pdf_pages page_num pages)).
Proof.
  intros Hfix Hdigit. rewrite Forall_forall in Hfix.
  assert (Hlit : forall l : text,
             incl l (str "# " ++ page_word ++ str " " ++ nl ++ str "---") ->
             Forall (fun c => c <> x) l).
  { intros l Hl. apply Forall_forall. intros c Hc. apply Hfix, Hl, Hc. }
  induction 1 as [|page pages Hpage _ IH]; intros page_num; [constructor|].
  cbn [pdf_pages]. rewrite concat_app. apply Forall_app. split; [|apply IH].
  destruct page as [[|c p]|]; [constructor| |constructor].
  cbn [app concat]. rewrite concat_app. repeat (apply Forall_app; split);
    try solve [apply Hlit; intros y Hy; vm_compute in Hy; vm_compute; tauto].
  - eapply Forall_impl; [|apply decimal_digits]. intros y Hy E. subst y. tauto.
  - rewrite Forall_forall in Hpage. apply Forall_forall. intros y Hy.
    apply in_concat in Hy as (l & Hl & Hy). apply in_map_iff in Hl as (line & <- & Hline).
    apply pdf_line_chars in Hy as [->|Hy].
    + apply Hfix. vm_compute. tauto.
    + apply Hpage. rewrite <- (@join_split (c :: p) nl) by discriminate.
      eapply in_join; eauto.
Qed.

(** A text without carriage return is read back as it was written. *)
Lemma read_text_plain (t : text) : Forall (fun c => c <> 13%N) t -> read_text t = t.
Proof.
  induction 1 as [|c t Hc _ IH]; [reflexivity|].
  cbn [read_text]. destruct (N.eqb_spec c 13); [contradiction|]. now rewrite IH.
Qed.

(** The pages of a PDF without ['<'] and without carriage return reach the
    chunker as the page pieces put together and trimmed: the Markdown is
    read back as it was written, and the wrapper alone is removed. *)
Theorem plain_pdf_reaches_chunker (pages : list (option text)) :
  Forall (fun page => match page with
                      | Some p => Forall (fun c => c <> 60%N) p
                      | None => True
                      end) pages ->
  Forall (fun page => match page with
                      | Some p => Forall (fun c => c <> 13%N) p
                      | None => True
                      end) pages ->
  read_text (fst (convert_pdf_to_markdown pages)) = fst (convert_pdf_to_markdown pages)
  /\ remove_rtl_wrapper (read_text (fst (convert_pdf_to_markdown pages)))
     = strip (concat (pdf_pages 1 pages)).
Proof.
  intros Hpages Hcr. unfold convert_pdf_to_markdown. cbn [fst].
  rewrite concat_wrapped.
  replace ((rtl_open ++ nl ++ nl) ++ concat (pdf_pages 1 pages) ++ rtl_close)
    with (rtl_open ++ (nl ++ nl ++ concat (pdf_pages 1 pages)) ++ rtl_close)
    by (now rewrite <- !app_assoc).
  assert (Hread : read_text (rtl_open ++ (nl ++ nl ++ concat (pdf_pages 1 pages))
                               ++ rtl_close)
                  = rtl_open ++ (nl ++ nl ++ concat (pdf_pages 1 pages)) ++ rtl_close).
  { apply read_text_plain.
    repeat (apply Forall_app; split); try (repeat constructor; discriminate).
    apply pdf_pages_avoid; trivial; [repeat constructor; discriminate|lia]. }
  split; [exact Hread|]. rewrite Hread.
  rewrite unwrap_plain_body.
  - rewrite <- (app_nil_r (concat (pdf_pages 1 pages))) at 1.
    apply (@strip_spaces_around (nl ++ nl) _ []); repeat constructor.
  - repeat (apply Forall_app; split); try (repeat constructor; discriminate).
    apply pdf_pages_avoid; trivial; [repeat constructor; discriminate|lia].
Qed.

Lemma plain_pdf_reaches_chunker_witness :
  Forall (fun page => match page with
                      | Some p => Forall (fun c => c <> 60%N) p
                      | None => True
                      end) [Some (str "ab c"); None]
  /\ Forall (fun page => match page with
                         | Some p => Forall (fun c => c <> 13%N) p
                         | None => True
                         end) [Some (str "ab c"); None]
  /\ remove_rtl_wrapper (read_text (fst (convert_pdf_to_markdown [Some (str "ab c"); None])))
     = strip (concat (pdf_pages 1 [Some (str "ab c"); None])).
Proof.
  assert (H : Forall (fun page => match page with
                                  | Some p => Forall (fun c => c <> 60%N) p
                                  | None => True
                                  end) [Some (str "ab c"); None])
    by (repeat constructor; discriminate).
  assert (H' : Forall (fun page => match page with
                                   | Some p => Forall (fun c => c <> 13%N) p
                                   | None => True
                                   end) [Some (str "ab c"); None])
    by (repeat constructor; discriminate).
  split; [exact H|]. split; [exact H'|]. exact (proj2 (plain_pdf_reaches_chunker H H')).
Defined.

(** The paragraphs of a DOCX without ['<'] reach the chunker with all their
    characters that are not whitespace, in order; blank paragraphs are
    dropped. *)
Theorem plain_docx_reaches_chunker (paragraphs : list text) :
  Forall (Forall (fun c => c <> 60%N)) paragraphs ->
  non_space (remove_rtl_wrapper (convert_docx_to_markdown paragraphs))
  = non_space (concat paragraphs).
Proof.
  intros Hp. unfold convert_docx_to_markdown.
  set (body := join nl (filter (fun p => truthy (strip p)) paragraphs)).
  assert (Hbody : Forall (fun c => c <> 60%N) body).
  { apply Forall_forall. intros c Hc. subst body.
    apply in_join_inv in Hc as [[<-|[]]|(p & Hin & Hc)]; [discriminate|].
    apply filter_In in Hin as [Hin _]. rewrite Forall_forall in Hp.
    specialize (Hp p Hin). rewrite Forall_forall in Hp. now apply Hp. }
  rewrite (proj2 (unwrap_plain_text Hbody)). subst body.
  rewrite non_space_join by (repeat constructor).
  clear. induction paragraphs as [|p ps IH]; [reflexivity|].
  cbn [filter concat]. rewrite (non_space_app p), <- IH.
  rewrite truthy_strip. destruct (existsb (fun c => negb (is_space c)) p) eqn:E.
  - cbn [concat]. now rewrite non_space_app.
  - replace (non_space p) with (@nil char); [reflexivity|].
    symmetry. unfold non_space.
    induction p as [|c p IHp]; [reflexivity|]. simpl in E |- *.
    apply orb_false_iff in E as [Hc Hp]. rewrite Hc. now apply IHp.
Qed.

Lemma plain_docx_reaches_chunker_witness :
  Forall (Forall (fun c => c <> 60%N)) [str "One. "; str "  "; str "Two"]
  /\ non_space (remove_rtl_wrapper (convert_docx_to_markdown [str "One. "; str "  "; str "Two"]))
     = non_space (concat [str "One. "; str "  "; str "Two"]).
Proof.
  assert (H : Forall (Forall (fun c => c <> 60%N)) [str "One. "; str "  "; str "Two"])
    by (repeat constructor; discriminate).
  split; [exact H|]. exact (plain_docx_reaches_chunker H).
Defined.

(** ** Chunk pipeline: files, index and store *)

Section PipelineMore.

Variable F : Type.
Variable embed : Pipeline.provider F.

Lemma each_chunk_all_files (w : bool) (n : nat) (chunks : list text) :
  forall i : nat,
    fst (Pipeline.each_chunk embed w n i chunks)
    = map (fun ic => (Pipeline.chunk_filename (fst ic),
                      Pipeline.chunk_markdown (fst ic) n (snd ic)))
          (combine (seq i (length chunks)) chunks).
Proof.
  induction chunks as [|chunk rest IH]; intros i; [reflexivity|].
  cbn [Pipeline.each_chunk length seq combine map fst snd]. specialize (IH (S i)).
  destruct (Pipeline.each_chunk embed w n (S i) rest) as [files entries].
  simpl in IH. rewrite <- IH.
  destruct w; [destruct (Pipeline.generate_embedding embed i chunk) as [[|x v]|]|];
    reflexivity.
Qed.

Lemma each_chunk_disabled (n : nat) (chunks : list text) :
  forall i : nat, snd (Pipeline.each_chunk embed false n i chunks) = [].
Proof.
  induction chunks as [|chunk rest IH]; intros i; [reflexivity|].
  cbn [Pipeline.each_chunk]. specialize (IH (S i)).
  destruct (Pipeline.each_chunk embed false n (S i) rest) as [files entries].
  exact IH.
Qed.

Lemma each_chunk_entries (w : bool) (n : nat) (rest : list text) :
  forall (pre : list text) (i : nat),
    i = S (length pre) ->
    let entries := snd (Pipeline.each_chunk embed w n i rest) in
    Forall (entry_ok embed (pre ++ rest)) entries
    /\ Forall (fun e => (i <= Pipeline.chunk_id e)%nat) entries
    /\ StronglySorted lt (map (@Pipeline.chunk_id F) entries)
    /\ (length entries <= length rest)%nat.
Proof.
  induction rest as [|chunk rest IH]; intros pre i Hi.
  - simpl. repeat split; constructor.
  - cbn [Pipeline.each_chunk]. specialize (IH (pre ++ [chunk]) (S i)).
    rewrite <- app_assoc in IH. simpl app in IH.
    rewrite length_app in IH. simpl length in IH. specialize (IH ltac:(lia)).
    destruct (Pipeline.each_chunk embed w n (S i) rest) as [files entries].
    cbn [snd] in IH. destruct IH as (Hok & Hlow & Hsorted & Hlen).
    assert (Hweak : Forall (fun e : Pipeline.entry F => (i <= Pipeline.chunk_id e)%nat)
                           entries).
    { eapply Forall_impl; [|exact Hlow]. simpl. intros e He. lia. }
    unfold Pipeline.generate_embedding.
    destruct w; [destruct (embed i chunk) as [[|x v]|] eqn:Ee|]; cbn [snd];
      try (repeat split; trivial; simpl length; lia).
    repeat split.
    + constructor; trivial. exists chunk. cbn.
      repeat split; trivial; try lia; try discriminate.
      * replace (i - 1)%nat with (length pre) by lia.
        rewrite nth_error_app2 by lia. now rewrite Nat.sub_diag.
      * rewrite length_app. simpl. lia.
    + constructor; trivial; cbn; lia.
    + cbn [map]. constructor; trivial.
      apply Forall_map. eapply Forall_impl; [|exact Hlow]. simpl. intros e He. lia.
    + simpl length. lia.
Qed.

Variable db : list (Pipeline.row F).
Variable chunks : list text.
Variables base_name split_strategy : text.
Variable enable_embedding : bool.
Variables api_key postgres_url : option text.

Let run (up : bool) : Pipeline.effects F :=
  Pipeline.save_chunks embed up db chunks base_name enable_embedding api_key
                       split_strategy postgres_url.

(** Every chunk gets its file, numbered from 1 in the order of the chunks,
    whatever happens to the embeddings and to the store. *)
Theorem save_chunks_writes_every_chunk (up : bool) :
  Pipeline.saved_files (run up)
  = map (fun ic => (Pipeline.chunk_filename (fst ic),
                    Pipeline.chunk_markdown (fst ic) (length chunks) (snd ic)))
        (combine (seq 1 (length chunks)) chunks).
Proof.
  subst run. cbv beta. unfold Pipeline.save_chunks.
  pose proof (each_chunk_all_files (enable_embedding && Pipeline.is_set api_key)
                (length chunks) chunks 1) as Hf.
  destruct (Pipeline.each_chunk embed (enable_embedding && Pipeline.is_set api_key)
              (length chunks) 1 chunks) as [files entries].
  cbn [fst] in Hf.
  destruct (truthy entries); [destruct (Pipeline.is_set postgres_url)|]; exact Hf.
Qed.

(** Without embeddings, disabled or without an API key, there is no
    embeddings index and the store is left as it was, also when a store is
    configured. *)
Theorem save_chunks_without_embeddings (up : bool) :
  enable_embedding && Pipeline.is_set api_key = false ->
  Pipeline.embeddings_json (run up) = None /\ Pipeline.database (run up) = db.
Proof.
  intros Hoff. subst run. cbv beta. unfold Pipeline.save_chunks. rewrite Hoff.
  pose proof (each_chunk_disabled (length chunks) chunks 1) as He.
  destruct (Pipeline.each_chunk embed false (length chunks) 1 chunks) as [files entries].
  cbn [snd] in He. subst entries. split; reflexivity.
Qed.

(** The embeddings index, when there is one, is not empty; its entries come
    in the order of the chunks, each for a chunk whose embedding call gave a
    non-empty vector, with that vector, its length, the name of the chunk
    file and the preview of the chunk. *)
Theorem save_chunks_index_entries (up : bool) (entries : list (Pipeline.entry F)) :
  Pipeline.embeddings_json (run up) = Some entries ->
  entries <> []
  /\ Forall (entry_ok embed chunks) entries
  /\ StronglySorted lt (map (@Pipeline.chunk_id F) entries).
Proof.
  subst run. cbv beta. unfold Pipeline.save_chunks.
  pose proof (@each_chunk_entries (enable_embedding && Pipeline.is_set api_key)
                (length chunks) chunks [] 1%nat eq_refl) as He.
  destruct (Pipeline.each_chunk embed (enable_embedding && Pipeline.is_set api_key)
              (length chunks) 1 chunks) as [files es].
  cbn [snd app] in He. destruct He as (Hok & _ & Hsorted & _).
  destruct es as [|e es]; cbn [truthy]; [discriminate|].
  destruct (Pipeline.is_set postgres_url); cbn [Pipeline.embeddings_json];
    intros E; injection E as <-; repeat split; trivial; discriminate.
Qed.

(** The store only grows: the rows it had are kept in place, and at most one
    row is added for every chunk, each with a non-empty vector, the name of
    the document and the strategy. An unreachable store is left as it was,
    and the files and the index are written all the same. *)
Theorem save_chunks_store_grows (up : bool) :
  (exists rows,
      Pipeline.database (run up) = db ++ rows
      /\ (length rows <= length chunks)%nat
      /\ Forall (fun r => Pipeline.has_vector (Pipeline.embedding_col r) = true
                          /\ Pipeline.filename_col r = base_name
                          /\ Pipeline.split_strategy_col r = split_strategy
                          /\ In (Pipeline.chunk_text_col r) chunks) rows)
  /\ Pipeline.database (run false) = db
  /\ Pipeline.saved_files (run false) = Pipeline.saved_files (run true)
  /\ Pipeline.embeddings_json (run false) = Pipeline.embeddings_json (run true).
Proof.
  subst run. cbv beta. unfold Pipeline.save_chunks.
  pose proof (@each_chunk_entries (enable_embedding && Pipeline.is_set api_key)
                (length chunks) chunks [] 1%nat eq_refl) as He.
  destruct (Pipeline.each_chunk embed (enable_embedding && Pipeline.is_set api_key)
              (length chunks) 1 chunks) as [files es].
  cbn [snd app] in He. destruct He as (Hok & _ & _ & Hlen).
  assert (Hnone : exists rows : list (Pipeline.row F),
             db = db ++ rows /\ (length rows <= length chunks)%nat
             /\ Forall (fun r => Pipeline.has_vector (Pipeline.embedding_col r) = true
                                 /\ Pipeline.filename_col r = base_name
                                 /\ Pipeline.split_strategy_col r = split_strategy
                                 /\ In (Pipeline.chunk_text_col r) chunks) rows).
  { exists []. rewrite app_nil_r. repeat split; [simpl; lia|constructor]. }
  destruct (truthy es); [|repeat split; trivial].
  unfold Pipeline.save_to_database.
  destruct (Pipeline.is_set postgres_url); [|repeat split; trivial].
  cbn [negb fst Pipeline.database Pipeline.saved_files Pipeline.embeddings_json].
  repeat split; trivial.
  destruct up; cbn [fst]; [|exact Hnone].
  eexists. split; [reflexivity|]. split; [now rewrite length_map|].
  apply Forall_map. eapply Forall_impl; [|exact Hok].
  intros e (c & Hc & _ & _ & Hv & _). unfold Pipeline.db_row, Pipeline.chunk_of_id.
  cbn. repeat split.
  - destruct (Pipeline.embedding e); [congruence|reflexivity].
  - rewrite (nth_error_nth _ _ _ Hc). eapply nth_error_In; eauto.
Qed.

End PipelineMore.

(** ** Chunk file names *)

Lemma str_injective (a b : string) : str a = str b -> a = b.
Proof.
  unfold str. intros E.
  rewrite <- (string_of_list_ascii_of_string a), <- (string_of_list_ascii_of_string b).
  f_equal. revert E. generalize (list_ascii_of_string a) (list_ascii_of_string b).
  induction l as [|x l IH]; intros [|y l']; simpl; intros E; try discriminate; trivial.
  injection E as Ex El. f_equal; [|now apply IH].
  rewrite <- (ascii_N_embedding x), <- (ascii_N_embedding y). now rewrite Ex.
Qed.

Lemma decimal_injective (i j : nat) : Pipeline.decimal i = Pipeline.decimal j -> i = j.
Proof.
  unfold Pipeline.decimal. intros E. apply str_injective in E.
  apply (f_equal NilEmpty.uint_of_string) in E. rewrite !NilEmpty.usu in E.
  injection E as E. apply (f_equal Nat.of_uint) in E.
  now rewrite !DecimalNat.Unsigned.of_to in E.
Qed.

Lemma chunk_filename_injective : Injective Pipeline.chunk_filename.
Proof.
  intros i j E. unfold Pipeline.chunk_filename in E.
  apply app_inv_head in E. apply app_inv_tail in E. now apply decimal_injective.
Qed.

(** No two chunks of a run are written to the same file. *)
Theorem save_chunks_file_names_distinct (F : Type) (embed : Pipeline.provider F)
        (up : bool) (db : list (Pipeline.row F)) (chunks : list text) (base_name : text)
        (enable_embedding : bool) (api_key : option text) (split_strategy : text)
        (postgres_url : option text) :
  NoDup (map fst (Pipeline.saved_files
                    (Pipeline.save_chunks embed up db chunks base_name enable_embedding
                                          api_key split_strategy postgres_url))).
Proof.
  rewrite save_chunks_files.
  apply Injective_map_NoDup; [apply chunk_filename_injective|apply seq_NoDup].
Qed.

(** ** Paragraph chunks have no blank line *)

Lemma occurs_in_snoc (a b c : char) (l : text) :
  occurs_in [a; b] (l ++ [c]) ->
  occurs_in [a; b] l \/ exists l', l = l' ++ [a] /\ c = b.
Proof.
  intros (l1 & l2 & E). destruct l2 as [|y l2].
  - change (l1 ++ [a; b] ++ []) with (l1 ++ [a] ++ [b]) in E.
    rewrite app_assoc in E. apply app_inj_tail in E as [-> ->]. right. eauto.
  - destruct (exists_last (l := y :: l2) ltac:(discriminate)) as (m & x & Em).
    rewrite Em in E.
    replace (l1 ++ [a; b] ++ m ++ [x]) with ((l1 ++ [a; b] ++ m) ++ [x]) in E
      by (now rewrite <- !app_assoc).
    apply app_inj_tail in E as [-> _]. left. now exists l1, m.
Qed.

Lemma occurs_in_infix (pat a s b : text) : occurs_in pat s -> occurs_in pat (a ++ s ++ b).
Proof.
  intros (l1 & l2 & ->). exists (a ++ l1), (l2 ++ b). now rewrite <- !app_assoc.
Qed.

Lemma split_blank_lines (t : text) :
  forall (skip : nat) (cur : text),
    ~ occurs_in (nl ++ nl) (rev cur) ->
    (skip = 0%nat ->
     forall p cur', cur = p :: cur' -> starts_with (nl ++ nl) (p :: t) = false) ->
    (skip <> 0%nat -> cur = []) ->
    Forall (fun piece => ~ occurs_in (nl ++ nl) piece) (split_aux (nl ++ nl) skip cur t).
Proof.
  induction t as [|c t IH]; intros skip cur Hcur H0 Hskip.
  - repeat constructor. exact Hcur.
  - cbn [split_aux]. destruct skip as [|k].
    + destruct (starts_with (nl ++ nl) (c :: t)) eqn:Hst.
      * constructor; trivial. apply IH.
        -- intros (l1 & l2 & E). destruct l1; discriminate E.
        -- intros _ p cur' E. discriminate E.
        -- reflexivity.
      * apply IH.
        -- simpl rev. intros Hocc.
           apply (@occurs_in_snoc 10%N 10%N c) in Hocc as [Hocc|(l' & E & ->)];
             [contradiction|].
           apply (f_equal (@rev char)) in E.
           rewrite rev_involutive, rev_app_distr in E. simpl in E.
           specialize (H0 eq_refl _ _ E). discriminate H0.
        -- intros _ p cur' E. injection E as <- <-. exact Hst.
        -- congruence.
    + rewrite (Hskip ltac:(discriminate)). apply IH.
      * intros (l1 & l2 & E). destruct l1; discriminate E.
      * intros _ p cur' E. discriminate E.
      * reflexivity.
Qed.

(** No paragraph chunk has two newlines in a row. *)
Theorem paragraph_chunks_have_no_blank_line (t : text) :
  Forall (fun c => ~ occurs_in (nl ++ nl) c) (chunk_text_by_paragraphs t).
Proof.
  apply Forall_forall. intros c Hc.
  apply strip_nonempty_spec in Hc as (p & Hp & -> & _).
  assert (Hpieces : Forall (fun piece => ~ occurs_in (nl ++ nl) piece) (split t (nl ++ nl))).
  { apply split_blank_lines.
    - intros (l1 & l2 & E). destruct l1; discriminate E.
    - intros _ p0 cur' E. discriminate E.
    - congruence. }
  rewrite Forall_forall in Hpieces. intros Hocc. apply (Hpieces p Hp).
  destruct (strip_infix p) as (a & b & E & _). rewrite E.
  now apply occurs_in_infix.
Qed.

(** ** The chunking stage of [convert_file] *)

Lemma strategy_name_known (strategy : text) :
  strategy_name strategy = None ->
  forall (fuel : nat) (t : text) (chunk_size overlap : Z),
    chunk_text fuel t strategy chunk_size overlap
    = Some (Raise (UnsupportedStrategy strategy)).
Proof.
  unfold strategy_name, chunk_text. intros H fuel t chunk_size overlap.
  destruct (text_eqb strategy (str "fixed")); [discriminate|].
  destruct (text_eqb strategy (str "sentence")); [discriminate|].
  destruct (text_eqb strategy (str "paragraph")); [discriminate|reflexivity].
Qed.

(** The look-up of the strategy in the table of names never fails: a name
    that is not in the table has made [chunk_text] raise before. When the
    stage saves, there is one file per chunk and the message tells their
    number. *)
Theorem chunking_stage_outcome (F : Type) (fuel : nat) (embed : Pipeline.provider F)
        (up : bool) (db : list (Pipeline.row F)) (content base_name chunk_strategy : text)
        (chunk_size overlap : Z) (enable_embedding : bool)
        (api_key postgres_url : option text) :
  let stage := chunking_stage fuel embed up db content base_name chunk_strategy
                              chunk_size overlap enable_embedding api_key postgres_url in
  stage <> Some KeyError
  /\ (forall effects message,
         stage = Some (Saved effects message) ->
         exists chunks name tail,
           chunk_text fuel (remove_rtl_wrapper content) chunk_strategy chunk_size overlap
           = Some (Ok chunks)
           /\ length (Pipeline.saved_files effects) = length chunks
           /\ strategy_name chunk_strategy = Some name
           /\ message = str " -> " ++ Pipeline.decimal (length chunks)
                            ++ str " chunks (" ++ name ++ tail).
Proof.
  intros stage. subst stage. unfold chunking_stage.
  destruct (chunk_text fuel (remove_rtl_wrapper content) chunk_strategy chunk_size overlap)
    as [[chunks|e]|] eqn:Hc; try (split; [|intros ? ?]; discriminate).
  destruct (strategy_name chunk_strategy) as [name|] eqn:Hn.
  - split; [discriminate|]. intros effects message E. injection E as <- <-.
    exists chunks, name. eexists. repeat split.
    pose proof (@save_chunks_files F embed base_name chunk_strategy up db chunks
                  enable_embedding api_key postgres_url) as Hf.
    apply (f_equal (@length text)) in Hf.
    now rewrite !length_map, length_seq in Hf.
  - rewrite (strategy_name_known _ Hn) in Hc. discriminate.
Qed.

(** A text file without ['<'], chunked by sentences or by paragraphs, comes
    out as chunks that together have all the characters of the file that
    are not whitespace, in their order. *)
Theorem plain_text_file_chunks_keep_text (F : Type) (fuel : nat)
        (embed : Pipeline.provider F) (up : bool) (db : list (Pipeline.row F))
        (t base_name chunk_strategy : text) (chunk_size overlap : Z)
        (enable_embedding : bool) (api_key postgres_url : option text) :
  Forall (fun c => c <> 60%N) t ->
  chunk_strategy = str "sentence" \/ chunk_strategy = str "paragraph" ->
  exists chunks message,
    chunking_stage fuel embed up db (format_text_to_markdown t) base_name chunk_strategy
                   chunk_size overlap enable_embedding api_key postgres_url
    = Some (Saved (Pipeline.save_chunks embed up db chunks base_name enable_embedding
                                        api_key chunk_strategy postgres_url) message)
    /\ non_space (concat chunks) = non_space t.
Proof.
  intros Ht Hs. unfold chunking_stage.
  destruct (unwrap_plain_text Ht) as [_ Hns].
  destruct Hs as [-> | ->]; cbn [chunk_text strategy_name text_eqb str];
    do 2 eexists; (split; [reflexivity|]).
  - now rewrite sentence_non_space.
  - now rewrite paragraph_non_space.
Qed.

Lemma plain_text_file_chunks_keep_text_witness :
  Forall (fun c => c <> 60%N) (str "Hi there. Bye!")
  /\ exists chunks message,
      chunking_stage 0 fails_on_second true [] (format_text_to_markdown (str "Hi there. Bye!"))
                     (str "doc") (str "sentence") 1000 200 false None None
      = Some (Saved (Pipeline.save_chunks fails_on_second true [] chunks (str "doc") false
                                          None (str "sentence") None) message)
      /\ non_space (concat chunks) = non_space (str "Hi there. Bye!").
Proof.
  assert (H : Forall (fun c => c <> 60%N) (str "Hi there. Bye!"))
    by (repeat constructor; discriminate).
  split; [exact H|].
  apply (@plain_text_file_chunks_keep_text Z 0 fails_on_second true [] (str "Hi there. Bye!")
           (str "doc") (str "sentence") 1000 200 false None None H).
  now left.
Defined.

Lemma save_chunks_without_embeddings_witness :
  true && Pipeline.is_set (@None text) = false
  /\ Pipeline.database
       (Pipeline.save_chunks fails_on_second true [] [str "a"; str "b"] (str "doc") true None
                             (str "fixed") (Some (str "postgres://db")))
     = [].
Proof.
  split; [reflexivity|].
  apply (@save_chunks_without_embeddings Z fails_on_second [] [str "a"; str "b"] (str "doc")
           (str "fixed") true None (Some (str "postgres://db")) true eq_refl).
Defined.

Lemma save_chunks_index_entries_witness :
  exists entries,
    Pipeline.embeddings_json
      (Pipeline.save_chunks fails_on_second true [] [str "a"; str "b"; str "c"] (str "doc")
                            true (Some (str "key")) (str "fixed") None)
    = Some entries
    /\ map (@Pipeline.chunk_id Z) entries = [1; 3]%nat
    /\ Forall (entry_ok fails_on_second [str "a"; str "b"; str "c"]) entries.
Proof.
  eexists. split; [reflexivity|]. split; [reflexivity|].
  apply (@save_chunks_index_entries Z fails_on_second [] [str "a"; str "b"; str "c"]
           (str "doc") (str "fixed") true (Some (str "key")) None true _ eq_refl).
Defined.
